(** * hcat: dependency queries, lease waits, atomic writes and the resolver

    A shallow embedding of the dependency layer of hcat (package
    [dependency]: the Consul health-service query), together with models
    of the Vault lease wait, the Vault list query, the atomic file writer
    and the resolver pass.

    Go strings are byte strings ([string]); [<] and [<=] on them are the
    byte-wise lexicographic order ([String.compare]).  A Go channel is a
    record of its buffer and its closed flag; a panic is an explicit
    outcome.  Network calls are an oracle from requests to replies, and
    every function that may reach the network returns the list of requests
    it issued. *)

From Stdlib Require Import String Ascii List ZArith QArith Lia Lqa Bool.
From Stdlib Require Import Sorted Permutation.
From stdpp Require Import gmap strings list.

Import ListNotations.
Local Open Scope string_scope.

(** ** Byte-wise order on Go strings *)

Module GoString.

Definition lt (s t : string) : Prop := String.compare s t = Lt.
Definition le (s t : string) : Prop := String.compare s t <> Gt.

(** strings.Split(s, ","): the pieces between the separators; a string
    without separator is its own single piece. *)
Fixpoint Split (sep : ascii) (s : string) : list string :=
  match s with
  | EmptyString => [EmptyString]
  | String c rest =>
      if Ascii.eqb c sep then EmptyString :: Split sep rest
      else match Split sep rest with
           | [] => [String c EmptyString]
           | piece :: pieces => String c piece :: pieces
           end
  end.

(** strings.Join(l, sep) *)
Fixpoint Join (sep : string) (l : list string) : string :=
  match l with
  | [] => EmptyString
  | [x] => x
  | x :: rest => x +:+ sep +:+ Join sep rest
  end.

(** White space as strings.TrimSpace sees it on ASCII input:
    tab, line feed, vertical tab, form feed, carriage return, space. *)
Definition isSpace (c : ascii) : bool :=
  let n := nat_of_ascii c in
  ((9 <=? n)%nat && (n <=? 13)%nat) || (n =? 32)%nat.

Fixpoint TrimLeft (p : ascii -> bool) (s : string) : string :=
  match s with
  | EmptyString => EmptyString
  | String c rest => if p c then TrimLeft p rest else s
  end.

(** Trailing trim: a character is dropped when it satisfies [p] and
    everything after it has been dropped. *)
Fixpoint TrimRight (p : ascii -> bool) (s : string) : string :=
  match s with
  | EmptyString => EmptyString
  | String c rest =>
      match TrimRight p rest with
      | EmptyString => if p c then EmptyString else String c EmptyString
      | kept => String c kept
      end
  end.

Definition TrimFunc (p : ascii -> bool) (s : string) : string :=
  TrimRight p (TrimLeft p s).

Definition TrimSpace (s : string) : string := TrimFunc isSpace s.

(** sort.Strings: the ascending arrangement of a slice of strings. *)
Fixpoint insertString (x : string) (l : list string) : list string :=
  match l with
  | [] => [x]
  | y :: rest => if String.ltb y x then y :: insertString x rest else x :: l
  end.

Definition SortStrings (l : list string) : list string :=
  fold_right insertString [] l.

End GoString.

(** ** Go channels of [struct{}] and panics *)

Module Chan.

Record t := mk { buffered : nat; capacity : nat; closed : bool }.

(** make(chan struct{}, n) *)
Definition make (n : nat) : t := mk 0 n false.

Inductive outcome (A : Type) :=
| Returned (a : A)
| Panicked (msg : string).
Arguments Returned {A} a.
Arguments Panicked {A} msg.

(** close(ch): closing a closed channel panics. *)
Definition close (ch : t) : outcome t :=
  if closed ch then Panicked "close of closed channel"
  else Returned (mk (buffered ch) (capacity ch) true).

(** The receive case of a [select] with a [default]: a buffered value is
    taken first; a closed and drained channel yields the zero value at
    once; otherwise the case is not ready. *)
Definition try_recv (ch : t) : option t :=
  match buffered ch with
  | S n => Some (mk n (capacity ch) (closed ch))
  | O => if closed ch then Some ch else None
  end.

End Chan.

(** ** sort.Stable of the Go library *)

Module GoSort.

(** insertionSort: each element in turn moves towards the front for as
    long as [less (data[j], data[j-1])].  The sorted front is kept
    reversed, nearest neighbour first. *)
Fixpoint sink {A} (less : A -> A -> bool) (x : A) (front : list A) : list A :=
  match front with
  | [] => [x]
  | y :: rest => if less x y then y :: sink less x rest else x :: front
  end.

Definition insertionSort {A} (less : A -> A -> bool) (data : list A) : list A :=
  rev (fold_left (fun front x => sink less x front) data []).

(** symMerge joins two adjacent sorted blocks.  Each of its comparisons
    is [less (element of the second block, element of the first block)],
    and an element of the second block goes in front of the element of
    the first block it meets exactly when that comparison holds. *)
Fixpoint symMerge {A} (less : A -> A -> bool) (first second : list A)
    {struct first} : list A :=
  match first with
  | [] => second
  | x :: first' =>
      (fix into (second : list A) : list A :=
         match second with
         | [] => first
         | y :: second' =>
             if less y x then y :: into second'
             else x :: symMerge less first' second
         end) second
  end.

Definition blockSize : nat := 20.

(** The slice in blocks of blockSize elements, the last one shorter when
    the length is no multiple; [fuel] bounds the number of blocks. *)
Fixpoint blocksOf {A} (fuel : nat) (data : list A) : list (list A) :=
  match fuel, data with
  | S fuel', _ :: _ =>
      firstn blockSize data :: blocksOf fuel' (skipn blockSize data)
  | _, _ => []
  end.

(** One round of merges: the blocks two by two, a last single block as
    it is. *)
Fixpoint mergePairs {A} (less : A -> A -> bool) (blocks : list (list A))
    : list (list A) :=
  match blocks with
  | b1 :: b2 :: rest => symMerge less b1 b2 :: mergePairs less rest
  | _ => blocks
  end.

(** Rounds of merges until one block is left; [fuel] bounds the rounds. *)
Fixpoint mergeBlocks {A} (less : A -> A -> bool) (fuel : nat)
    (blocks : list (list A)) : list A :=
  match blocks with
  | [] => []
  | [b] => b
  | _ =>
      match fuel with
      | O => concat blocks
      | S fuel' => mergeBlocks less fuel' (mergePairs less blocks)
      end
  end.

(** sort.Stable: insertion sort of the blocks, then merges of blocks of
    doubling size.  The length of the slice is fuel enough for the
    blocks, and the number of blocks for the rounds. *)
Definition Stable {A} (less : A -> A -> bool) (data : list A) : list A :=
  let blocks := map (insertionSort less) (blocksOf (length data) data) in
  mergeBlocks less (length blocks) blocks.

End GoSort.

(** ** The Consul API types the health query reads and the values it returns *)

Module api.

Record HealthCheck := { CheckID : string; CheckStatus : string }.
Definition HealthChecks := list HealthCheck.

Record Node := {
  ID : string; Node_ : string; Address : string; Datacenter : string;
  TaggedAddresses : list (string * string); Meta : list (string * string) }.

Record AgentService := {
  ServiceID : string; Service_ : string; ServiceTags : list string;
  ServiceMeta : list (string * string); ServicePort : Z;
  ServiceAddress : string; ServiceWeights : Z * Z;
  ServiceNamespace : string }.

Record ServiceEntry := {
  EntryNode : Node; EntryService : AgentService; EntryChecks : HealthChecks }.

Record QueryMeta := { LastIndex : Z; LastContact : Z }.

End api.

Module dep.

Record HealthService := {
  Node : string; NodeID : string; NodeAddress : string;
  NodeDatacenter : string;
  NodeTaggedAddresses : list (string * string);
  NodeMeta : list (string * string);
  ServiceMeta : list (string * string);
  Address : string; ID : string; Name : string; Tags : list string;
  Status : string; Checks : api.HealthChecks; Port : Z;
  Weights : Z * Z; Namespace : string }.

Record ResponseMetadata := { LastIndex : Z; LastContact : Z }.

End dep.

(** ** health_service.go *)

Module HealthService.

Import Chan.

Definition HealthAny := "any".
Definition HealthPassing := "passing".
Definition HealthWarning := "warning".
Definition HealthCritical := "critical".
Definition HealthMaint := "maintenance".

(** The named groups of a match of HealthServiceQueryRe, as
    regexpMatch returns them; a group that took no part is empty. *)
Record Groups := {
  m_tag : string; m_name : string; m_dc : string;
  m_near : string; m_filter : string }.

(** What health_service.go uses and other files declare: the query
    options and their merge, the regular expression assembled from
    tagRe, serviceNameRe, dcRe, nearRe and filterRe, the tag copy, and
    the Consul client's aggregation of check states. *)
Class Externals := {
  QueryOptions : Type;
  ConsulQueryOptions : Type;
  zeroQueryOptions : QueryOptions;
  mkQueryOptions : string -> string -> QueryOptions;
  Merge : QueryOptions -> QueryOptions -> QueryOptions;
  ToConsulOpts : QueryOptions -> ConsulQueryOptions;
  HealthServiceQueryRe : string -> option Groups;
  deepCopyAndSortTags : list string -> list string;
  AggregatedStatus : api.HealthChecks -> string }.

Inductive error :=
| ErrStopped
| ErrInvalidFormat (s : string)
    (* health.service: invalid format: %q *)
| ErrInvalidFilter (f s : string)
    (* health.service: invalid filter: %q in %q *)
| ErrWrap (cause : string) (context : string).

Section Query.

Context {ext : Externals}.

Record HealthServiceQuery := {
  stopCh : Chan.t;
  dc : string; filters : list string; name : string;
  near : string; tag : string; connect : bool;
  opts : QueryOptions }.

Definition isHealthState (f : string) : bool :=
  String.eqb f HealthAny || String.eqb f HealthPassing
  || String.eqb f HealthWarning || String.eqb f HealthCritical
  || String.eqb f HealthMaint.

(** The loop over the pieces of the filter clause; it leaves the
    constructor at the first piece that is neither known nor empty. *)
Fixpoint collectFilters (s : string) (split : list string)
    (acc : list string) : error + list string :=
  match split with
  | [] => inr acc
  | f :: rest =>
      let f := GoString.TrimSpace f in
      if isHealthState f then collectFilters s rest (acc ++ [f])
      else if String.eqb f "" then collectFilters s rest acc
      else inl (ErrInvalidFilter f s)
  end.

Definition healthServiceQuery (s : string) (connect : bool)
    : error + HealthServiceQuery :=
  match HealthServiceQueryRe s with
  | None => inl (ErrInvalidFormat s)
  | Some m =>
      let parsed :=
        if negb (String.eqb (m_filter m) "") then
          match collectFilters s (GoString.Split "," (m_filter m)) [] with
          | inl e => inl e
          | inr fs => inr (GoString.SortStrings fs)
          end
        else inr [HealthPassing] in
      match parsed with
      | inl e => inl e
      | inr fs =>
          inr {| stopCh := Chan.make 1;
                 dc := m_dc m; filters := fs; name := m_name m;
                 near := m_near m; tag := m_tag m; connect := connect;
                 opts := zeroQueryOptions |}
      end
  end.

Definition NewHealthServiceQuery (s : string) := healthServiceQuery s false.
Definition NewHealthConnectQuery (s : string) := healthServiceQuery s true.

(** String: the identity of the dependency. *)
Definition String_ (d : HealthServiceQuery) : string :=
  let n := name d in
  let n := if negb (String.eqb (tag d) "") then tag d +:+ "." +:+ n else n in
  let n := if negb (String.eqb (dc d) "") then n +:+ "@" +:+ dc d else n in
  let n := if negb (String.eqb (near d) "") then n +:+ "~" +:+ near d else n in
  let n := if (0 <? length (filters d))%nat
           then n +:+ "|" +:+ GoString.Join "," (filters d) else n in
  "health.service(" +:+ n +:+ ")".

Definition SetOptions (d : HealthServiceQuery) (o : QueryOptions)
    : HealthServiceQuery :=
  {| stopCh := stopCh d; dc := dc d; filters := filters d;
     name := name d; near := near d; tag := tag d;
     connect := connect d; opts := o |}.

Definition CanShare (d : HealthServiceQuery) : bool := true.

Definition withStopCh (d : HealthServiceQuery) (ch : Chan.t)
    : HealthServiceQuery :=
  {| stopCh := ch; dc := dc d; filters := filters d;
     name := name d; near := near d; tag := tag d;
     connect := connect d; opts := opts d |}.

(** Stop closes the stop channel, and nothing guards the close. *)
Definition Stop (d : HealthServiceQuery) : outcome HealthServiceQuery :=
  match Chan.close (stopCh d) with
  | Returned ch => Returned (withStopCh d ch)
  | Panicked msg => Panicked msg
  end.

Fixpoint acceptStatus (list : list string) (s : string) : bool :=
  match list with
  | [] => false
  | status :: rest =>
      if String.eqb status s || String.eqb status HealthAny then true
      else acceptStatus rest s
  end.

(** ByNodeThenID.Less *)
Definition Less (x y : dep.HealthService) : bool :=
  if String.ltb (dep.Node x) (dep.Node y) then true
  else if String.eqb (dep.Node x) (dep.Node y)
       then String.leb (dep.ID x) (dep.ID y)
       else false.

(** One request to the Consul health endpoint (Health().Service or
    Health().Connect) and the reply of the server. *)
Record Request := {
  req_connect : bool; req_name : string; req_tag : string;
  req_passingOnly : bool; req_opts : ConsulQueryOptions }.

Definition Clients : Type :=
  Request -> string + (list api.ServiceEntry * api.QueryMeta).

Definition passingOnly (d : HealthServiceQuery) : bool :=
  match filters d with
  | [f] => String.eqb f HealthPassing
  | _ => false
  end.

(** The body of the loop over the entries for an accepted entry. *)
Definition toHealthService (entry : api.ServiceEntry) : dep.HealthService :=
  let status := AggregatedStatus (api.EntryChecks entry) in
  let address := api.ServiceAddress (api.EntryService entry) in
  let address :=
    if String.eqb address "" then api.Address (api.EntryNode entry)
    else address in
  {| dep.Node := api.Node_ (api.EntryNode entry);
     dep.NodeID := api.ID (api.EntryNode entry);
     dep.NodeAddress := api.Address (api.EntryNode entry);
     dep.NodeDatacenter := api.Datacenter (api.EntryNode entry);
     dep.NodeTaggedAddresses := api.TaggedAddresses (api.EntryNode entry);
     dep.NodeMeta := api.Meta (api.EntryNode entry);
     dep.ServiceMeta := api.ServiceMeta (api.EntryService entry);
     dep.Address := address;
     dep.ID := api.ServiceID (api.EntryService entry);
     dep.Name := api.Service_ (api.EntryService entry);
     dep.Tags := deepCopyAndSortTags (api.ServiceTags (api.EntryService entry));
     dep.Status := status;
     dep.Checks := api.EntryChecks entry;
     dep.Port := api.ServicePort (api.EntryService entry);
     dep.Weights := api.ServiceWeights (api.EntryService entry);
     dep.Namespace := api.ServiceNamespace (api.EntryService entry) |}.

Definition accepted (d : HealthServiceQuery) (entry : api.ServiceEntry) : bool :=
  acceptStatus (filters d) (AggregatedStatus (api.EntryChecks entry)).

Fixpoint buildList (d : HealthServiceQuery) (entries : list api.ServiceEntry)
    : list dep.HealthService :=
  match entries with
  | [] => []
  | entry :: rest =>
      if accepted d entry then toHealthService entry :: buildList d rest
      else buildList d rest
  end.

Definition request (d : HealthServiceQuery) : Request :=
  let o := Merge (opts d) (mkQueryOptions (dc d) (near d)) in
  {| req_connect := connect d; req_name := name d; req_tag := tag d;
     req_passingOnly := passingOnly d; req_opts := ToConsulOpts o |}.

Record FetchReturn := {
  after : HealthServiceQuery;
  issued : list Request;
  result : error + (list dep.HealthService * dep.ResponseMetadata) }.

(** Fetch: the stop channel is polled first; only then the request is
    built and sent. *)
Definition Fetch (d : HealthServiceQuery) (clients : Clients) : FetchReturn :=
  match Chan.try_recv (stopCh d) with
  | Some ch =>
      {| after := withStopCh d ch; issued := []; result := inl ErrStopped |}
  | None =>
      let req := request d in
      match clients req with
      | inl err =>
          {| after := d; issued := [req];
             result := inl (ErrWrap err (String_ d)) |}
      | inr (entries, qm) =>
          let list := buildList d entries in
          let list := if String.eqb (near d) "" then GoSort.Stable Less list
                      else list in
          let rm := {| dep.LastIndex := api.LastIndex qm;
                       dep.LastContact := api.LastContact qm |} in
          {| after := d; issued := [req]; result := inr (list, rm) |}
      end
  end.

(** A run of Fetch calls on one dependency, oldest first. *)
Fixpoint fetches (d : HealthServiceQuery) (calls : list Clients)
    : list FetchReturn :=
  match calls with
  | [] => []
  | clients :: rest =>
      let r := Fetch d clients in r :: fetches (after r) rest
  end.

End Query.

(** The order ByNodeThenID sorts by: the node name first, the service
    ID among entries of one node. *)
Definition NodeThenID_le (x y : dep.HealthService) : Prop :=
  GoString.lt (dep.Node x) (dep.Node y)
  \/ (dep.Node x = dep.Node y /\ GoString.le (dep.ID x) (dep.ID y)).

(** A filter name the constructor refuses: not empty and not a health state. *)
Definition refused (f : string) : Prop :=
  isHealthState f = false /\ f <> "".

End HealthService.

(** ** A concrete environment for the health query *)

Module Sample.

Import HealthService.

(** The text before the first [c], and the text after it when [c] occurs. *)
Fixpoint cut (c : ascii) (s : string) : string * option string :=
  match s with
  | EmptyString => (EmptyString, None)
  | String a rest =>
      if Ascii.eqb a c then (EmptyString, Some rest)
      else let (h, t) := cut c rest in (String a h, t)
  end.

(** The text before the last [c] when [c] occurs, and the text after it. *)
Fixpoint cutLast (c : ascii) (s : string) : option string * string :=
  match s with
  | EmptyString => (None, EmptyString)
  | String a rest =>
      match cutLast c rest with
      | (Some t, n) => (Some (String a t), n)
      | (None, n) =>
          if Ascii.eqb a c then (Some EmptyString, n) else (None, String a n)
      end
  end.

Fixpoint contains (c : ascii) (s : string) : bool :=
  match s with
  | EmptyString => false
  | String a rest => Ascii.eqb a c || contains c rest
  end.

(** A clause that is present is not empty and holds no delimiter. *)
Definition clauseOk (o : option string) : bool :=
  match o with
  | None => true
  | Some s =>
      negb (String.eqb s "")
      && negb (contains "@" s || contains "~" s || contains "|" s)
  end.

Definition orEmpty (o : option string) : string :=
  match o with Some s => s | None => EmptyString end.

(** Modelled from the spec: the regular expression HealthServiceQueryRe is
    assembled from fragments (tagRe, serviceNameRe, dcRe, nearRe,
    filterRe) that a file outside src declares.  This matcher follows the
    grammar the specification gives for a health service query,
    [tag.]name[@dc][~near][|filter[,filter...]]: the clauses come in this
    order, each introduced by its delimiter; the name is the text after
    the last dot of the head.  The character classes of the fragments are
    not given there and are not checked. *)
Definition grammarMatch (s : string) : option Groups :=
  let (h1, filter) := cut "|" s in
  let (h2, near) := cut "~" h1 in
  let (h3, dc) := cut "@" h2 in
  let (tag, name) := cutLast "." h3 in
  if negb (String.eqb name "") && clauseOk tag && clauseOk dc
     && clauseOk near && clauseOk filter
  then Some {| m_tag := orEmpty tag; m_name := name; m_dc := orEmpty dc;
               m_near := orEmpty near; m_filter := orEmpty filter |}
  else None.

(** A stand-in for the aggregation of check states by the Consul client:
    the worst state among the checks, passing when there is none. *)
Definition aggregate (checks : api.HealthChecks) : string :=
  let has st := existsb (fun c => String.eqb (api.CheckStatus c) st) checks in
  if has HealthMaint then HealthMaint
  else if has HealthCritical then HealthCritical
  else if has HealthWarning then HealthWarning
  else HealthPassing.

(** Options reduced to the two fields the query sets. *)
Definition mergeOptions (o q : string * string) : string * string :=
  (if String.eqb (fst q) "" then fst o else fst q,
   if String.eqb (snd q) "" then snd o else snd q).

#[export] Instance externals : Externals := {|
  QueryOptions := string * string;
  ConsulQueryOptions := string * string;
  zeroQueryOptions := (EmptyString, EmptyString);
  mkQueryOptions := fun dc near => (dc, near);
  Merge := mergeOptions;
  ToConsulOpts := fun o => o;
  HealthServiceQueryRe := grammarMatch;
  deepCopyAndSortTags := GoString.SortStrings;
  AggregatedStatus := aggregate |}.

Definition node (name addr : string) : api.Node :=
  {| api.ID := "id-" +:+ name; api.Node_ := name; api.Address := addr;
     api.Datacenter := "dc1"; api.TaggedAddresses := []; api.Meta := [] |}.

Definition service (id addr : string) : api.AgentService :=
  {| api.ServiceID := id; api.Service_ := "web"; api.ServiceTags := [];
     api.ServiceMeta := []; api.ServicePort := 80;
     api.ServiceAddress := addr; api.ServiceWeights := (1, 1)%Z;
     api.ServiceNamespace := "" |}.

Definition entry (n naddr id saddr status : string) : api.ServiceEntry :=
  {| api.EntryNode := node n naddr; api.EntryService := service id saddr;
     api.EntryChecks := [ {| api.CheckID := "c"; api.CheckStatus := status |} ] |}.

(** A server with three instances of the service, returned nearest first. *)
Definition server : Clients :=
  fun _ => inr ([ entry "n2" "10.0.0.2" "web2" "" "passing";
                  entry "n1" "10.0.0.1" "web1" "10.1.0.1" "passing";
                  entry "n1" "10.0.0.1" "web0" "" "critical" ],
                {| api.LastIndex := 7; api.LastContact := 0 |}).

(** The query for "web", as NewHealthServiceQuery builds it. *)
Definition web : HealthServiceQuery :=
  {| stopCh := Chan.make 1; dc := ""; filters := [HealthPassing];
     name := "web"; near := ""; tag := ""; connect := false;
     opts := zeroQueryOptions |}.

Definition webStopped : HealthServiceQuery :=
  withStopCh web (Chan.mk 0 1 true).

(** What Fetch returns for [web] from [server]. *)
Definition webList : list dep.HealthService :=
  Eval vm_compute in
    match result (Fetch web server) with inr (l, _) => l | inl _ => [] end.

Definition webMeta : dep.ResponseMetadata :=
  {| dep.LastIndex := 7; dep.LastContact := 0 |}.

Definition webFirst : dep.HealthService :=
  Eval vm_compute in
    match webList with h :: _ => h | [] => toHealthService (entry "" "" "" "" "") end.

End Sample.

(** ** The Vault lease wait (vault_common.go) *)

Module Vault.

Local Open Scope Q_scope.

(** A value of Secret.Data: a json.Number or a string. *)
Inductive value :=
| Number (n : Z)
| Text (s : string).

Record Secret := {
  LeaseDuration : Z;
  Renewable : bool;
  Data : gmap string value }.

(** Data[key] when it is a number. *)
Definition number (s : Secret) (key : string) : option Z :=
  match Data s !! key with
  | Some (Number n) => Some n
  | _ => None
  end.

(** The point of [lo, hi] a draw [u] of [0, 1] selects. *)
Definition between (lo hi u : Q) : Q := lo + u * (hi - lo).

(** Whether Data has the key, whatever the value. *)
Definition carries (s : Secret) (key : string) : bool :=
  match Data s !! key with
  | Some _ => true
  | None => false
  end.

(** The base of the wait of a secret that is neither renewable nor
    rotating.  For a secret of an AppRole (Data carries secret_id or
    secret_id_ttl) it is secret_id_ttl plus a second, the lease duration
    standing for a secret_id_ttl that is 0 or missing; for any other
    secret it is the lease duration. *)
Definition expiringBase (s : Secret) : Q :=
  if carries s "secret_id" || carries s "secret_id_ttl" then
    match number s "secret_id_ttl" with
    | Some t =>
        if (0 <? t)%Z then inject_Z (t + 1)
        else inject_Z (LeaseDuration s + 1)
    | None => inject_Z (LeaseDuration s + 1)
    end
  else inject_Z (LeaseDuration s).

(** Modelled from the spec: leaseCheckWait is declared in
    vault_common.go, which is not under src; src holds its test,
    TestVaultRenewDuration.  The result is in seconds; [u] is the random
    draw.  A renewable lease waits between a sixth and a third of the
    lease duration; a secret with rotation_period and ttl waits ttl plus
    one second, at most rotation_period; any other secret waits between
    85% and 95% of its base.  The test fixes the base in the cases of a
    secret_id: with secret_id_ttl = 60 it accepts 0.85 * 61 up to
    0.95 * 61 only, and with secret_id_ttl = 0 or no secret_id_ttl and
    lease duration 1000 it accepts 0.85 * 1001 up to 0.95 * 1001 only;
    without secret_id and lease duration 100 it accepts 85 up to 95.  So
    secret_id_ttl + 1, with the lease duration for a secret_id_ttl that
    is 0 or missing, replaces the lease duration as the base of the 85%
    to 95% wait and is not itself the wait. *)
Definition leaseCheckWait (u : Q) (s : Secret) : Q :=
  let lease := inject_Z (LeaseDuration s) in
  if Renewable s then between (lease / 6) (lease / 3) u
  else
    match number s "rotation_period", number s "ttl" with
    | Some period, Some ttl => inject_Z (Z.min (ttl + 1) period)
    | _, _ =>
        let base := expiringBase s in
        between (0.85 * base) (0.95 * base) u
    end.

(** *** TestVaultRenewDuration: its secrets and what it accepts *)

Definition renewable : Secret :=
  {| LeaseDuration := 100; Renewable := true; Data := ∅ |}.

Definition nonRenewable : Secret :=
  {| LeaseDuration := 100; Renewable := false; Data := ∅ |}.

Definition rotated (period ttl : Z) : Secret :=
  {| LeaseDuration := 100; Renewable := false;
     Data := <["rotation_period" := Number period]>
               (<["ttl" := Number ttl]> ∅) |}.

Definition secretID (leaseDur : Z) (ttl : option Z) : Secret :=
  {| LeaseDuration := leaseDur; Renewable := false;
     Data := match ttl with
             | Some t => <["secret_id" := Text "abc"]>
                           (<["secret_id_ttl" := Number t]> ∅)
             | None => <["secret_id" := Text "abc"]> ∅
             end |}.

(** The certificate of the test: expiration is the time of the run plus
    100 s. *)
Definition nonRenewableCert (expiration : Z) : Secret :=
  {| LeaseDuration := 100; Renewable := false;
     Data := <["expiration" := Number expiration]>
               (<["certificate" := Text "foobar"]> ∅) |}.

Definition Qltb (x y : Q) : bool := negb (Qle_bool y x).

(** The test fails when [dur < 16 || dur >= 34]. *)
Definition acceptsRenewable (dur : Q) : bool :=
  negb (Qltb dur 16 || Qle_bool 34 dur).

(** The test fails when [dur < 85 || dur > 95]. *)
Definition acceptsNonRenewable (dur : Q) : bool :=
  negb (Qltb dur 85 || Qltb 95 dur).

(** "secret ID handling": the test fails when
    [dur < 0.85*(x+1) || dur > 0.95*(x+1)], with x = 60 in the normal
    case and x = leaseDur = 1000 in the cases "0 ttl" and "ttl missing". *)
Definition acceptsSecretID (x : Z) (dur : Q) : bool :=
  negb (Qltb dur (0.85 * inject_Z (x + 1))
        || Qltb (0.95 * inject_Z (x + 1)) dur).

End Vault.

(** ** The Vault list query (vault_list.go) *)

Module VaultList.

Record VaultListQuery := { stopCh : Chan.t; path : string }.

Inductive error :=
| ErrInvalidFormat (s : string).

Definition isSlash (c : ascii) : bool := Ascii.eqb c "/".

(** Modelled from the spec: NewVaultListQuery is declared in
    vault_list.go, which is not under src; src holds its test,
    TestNewVaultListQuery.  Leading and trailing slashes of the path are
    stripped, and the empty path is rejected. *)
Definition NewVaultListQuery (s : string) : error + VaultListQuery :=
  let s := GoString.TrimFunc isSlash s in
  if String.eqb s "" then inl (ErrInvalidFormat s)
  else inr {| stopCh := Chan.make 1; path := s |}.

(** The identity of the query, as TestVaultListQuery_String reads it. *)
Definition ID (d : VaultListQuery) : string :=
  "vault.list(" +:+ path d +:+ ")".

(** The identity of the query a string gives, when it gives one. *)
Definition identity (s : string) : option string :=
  match NewVaultListQuery s with
  | inr d => Some (ID d)
  | inl _ => None
  end.

End VaultList.

(** ** The atomic file writer (renderer.go) *)

Module Renderer.

(** A path by its components, outermost first; the root is []. *)
Definition Path := list string.

Record File := { contents : string; mode : Z }.

(** A file system is the tree of its root directory: a regular file, or a
    directory with its entries by name. *)
#[warnings="-register-all"] Inductive node :=
| FileNode (f : File)
| DirNode (entries : gmap string node).

Inductive Errno := ENOENT | ENOTDIR | EISDIR.

Inductive error :=
| errNoParentDir
| PathError (e : Errno).

Inductive FileInfo :=
| Regular (f : File)
| Directory.

(** filepath.Dir *)
Definition Dir (p : Path) : Path := removelast p.

(** os.Stat walks the path from the root: ENOENT where a directory lacks
    the next name, ENOTDIR where the walk has to pass a regular file. *)
Fixpoint Stat (fs : node) (p : Path) : Errno + FileInfo :=
  match p with
  | [] =>
      match fs with
      | FileNode f => inr (Regular f)
      | DirNode _ => inr Directory
      end
  | c :: rest =>
      match fs with
      | FileNode _ => inl ENOTDIR
      | DirNode entries =>
          match entries !! c with
          | Some child => Stat child rest
          | None => inl ENOENT
          end
      end
  end.

(** os.IsNotExist on the error of os.Stat *)
Definition IsNotExist (r : Errno + FileInfo) : bool :=
  match r with
  | inl ENOENT => true
  | _ => false
  end.

(** os.MkdirAll: the directories of the path that are missing are made,
    empty; a regular file on the path is an error and nothing is made. *)
Fixpoint MkdirAll (fs : node) (p : Path) : error + node :=
  match fs with
  | FileNode _ => inl (PathError ENOTDIR)
  | DirNode entries =>
      match p with
      | [] => inr fs
      | c :: rest =>
          match MkdirAll (default (DirNode ∅) (entries !! c)) rest with
          | inl e => inl e
          | inr child => inr (DirNode (<[c := child]> entries))
          end
      end
  end.

(** The new contents take the place of the old in one step; a file that
    is there keeps its permission bits.  The directory of the destination
    has to be there, and the destination may not be a directory. *)
Fixpoint replace (fs : node) (p : Path) (data : string) (perms : Z)
    : error + node :=
  match p with
  | [] =>
      match fs with
      | FileNode old => inr (FileNode {| contents := data; mode := mode old |})
      | DirNode _ => inl (PathError EISDIR)
      end
  | c :: rest =>
      match fs with
      | FileNode _ => inl (PathError ENOTDIR)
      | DirNode entries =>
          match entries !! c with
          | Some child =>
              match replace child rest data perms with
              | inl e => inl e
              | inr child => inr (DirNode (<[c := child]> entries))
              end
          | None =>
              match rest with
              | [] =>
                  inr (DirNode (<[c := FileNode {| contents := data;
                                                   mode := perms |}]> entries))
              | _ => inl (PathError ENOENT)
              end
          end
      end
  end.

(** Modelled from the spec: atomicWrite is declared in renderer.go, which
    is not under src; src holds its test, TestAtomicWrite.  The bytes are
    rendered to the destination; when os.Stat finds that the parent
    directory does not exist, the missing parent directories are created
    if that is permitted, and otherwise the sentinel errNoParentDir is
    returned and nothing is written.  An error of the file system ends
    the write with that error. *)
Definition atomicWrite (fs : node) (path : Path) (data : string) (perms : Z)
    (createParents : bool) : node * option error :=
  let parent := Dir path in
  let prepared :=
    if IsNotExist (Stat fs parent) then
      if createParents then MkdirAll fs parent else inl errNoParentDir
    else inr fs in
  match prepared with
  | inl e => (fs, Some e)
  | inr fs =>
      match replace fs path data perms with
      | inl e => (fs, Some e)
      | inr fs => (fs, None)
      end
  end.

(** TestAtomicWrite: the temporary directory has been removed again. *)
Definition removedOutDir : node := DirNode {[ "tmp" := DirNode ∅ ]}.

Definition outFile (name : string) : Path :=
  ["tmp"; "out"; "nope"; "not"; "it"; name].

(** The file system of TestAtomicWrite/non_existent after the write. *)
Definition created : node :=
  DirNode {[ "tmp" :=
    DirNode {[ "out" :=
      DirNode {[ "nope" :=
        DirNode {[ "not" :=
          DirNode {[ "it" :=
            DirNode {[ "create" :=
              FileNode {| contents := ""; mode := 420 |} ]} ]} ]} ]} ]} ]}.

End Renderer.

(** ** The resolver (resolver.go) with the store and the watcher it drives *)

Module Resolver.

Definition ID := string.
Definition Value := string.

Record Dependency := { dep_ID : ID; CanShare : bool }.

(** *** Store *)

Record Store := { values : gmap ID Value; recalls : gmap ID nat }.

Definition NewStore : Store := {| values := ∅; recalls := ∅ |}.

Definition Save (id : ID) (v : Value) (st : Store) : Store :=
  {| values := <[id := v]> (values st); recalls := recalls st |}.

Definition Recall (id : ID) (st : Store) : Store * option Value :=
  ({| values := values st;
      recalls := <[id := S (default 0%nat (recalls st !! id))]> (recalls st) |},
   values st !! id).

Definition Delete (id : ID) (st : Store) : Store :=
  {| values := delete id (values st); recalls := delete id (recalls st) |}.

Definition Reset (st : Store) : Store := NewStore.

(** *** Watcher: the views and their reference counts *)

(** A shared view is keyed by its dependency, an unshared one by the
    template too. *)
Definition ViewKey : Type := option string * ID.

Record Watcher := {
  views : gmap ViewKey nat;
  snapshot : gmap ViewKey nat }.

Definition NewWatcher : Watcher := {| views := ∅; snapshot := ∅ |}.

Definition viewKey (tmpl : string) (d : Dependency) : ViewKey :=
  if CanShare d then (None, dep_ID d) else (Some tmpl, dep_ID d).

Definition Mark (tmpl : string) (w : Watcher) : Watcher :=
  {| views := views w; snapshot := views w |}.

Definition Track (tmpl : string) (d : Dependency) (w : Watcher) : Watcher :=
  let k := viewKey tmpl d in
  {| views := <[k := S (default 0%nat (views w !! k))]> (views w);
     snapshot := snapshot w |}.

(** A view stays when its count went up since Mark; an unshared view of
    the template goes in any case. *)
Definition kept (tmpl : string) (snap : gmap ViewKey nat)
    (k : ViewKey) (n : nat) : bool :=
  match fst k with
  | Some owner => negb (String.eqb owner tmpl)
  | None =>
      match snap !! k with
      | Some before => (before <? n)%nat
      | None => true
      end
  end.

Definition Sweep (tmpl : string) (w : Watcher) : Watcher :=
  {| views := filter (fun kn => kept tmpl (snapshot w) (fst kn) (snd kn) = true)
                     (views w);
     snapshot := snapshot w |}.

(** *** Template *)

(** What a template does with its lookup closure: it asks for values and
    in the end emits its bytes. *)
Inductive Body :=
| Emit (out : string)
| Look (d : Dependency) (k : Value -> Body).

Record Template := {
  tmpl_ID : string;
  body : Body;
  lastEmitted : option string }.

(** The zero form a missing value is replaced by. *)
Definition zeroValue : Value := "".

Record Pass := {
  pass_watcher : Watcher;
  pass_store : Store;
  output : string;
  missing : list ID;
  used : list ID }.

(** One execution of the body: every lookup tracks the dependency, then
    recalls it from the store; a miss is recorded and execution goes on
    with the zero form. *)
Fixpoint execute (tmpl : string) (b : Body) (w : Watcher) (st : Store)
    (miss use : list ID) : Pass :=
  match b with
  | Emit out =>
      {| pass_watcher := w; pass_store := st; output := out;
         missing := miss; used := use |}
  | Look d k =>
      let w := Track tmpl d w in
      let (st, found) := Recall (dep_ID d) st in
      match found with
      | Some v => execute tmpl (k v) w st miss (use ++ [dep_ID d])
      | None =>
          execute tmpl (k zeroValue) w st
                  (miss ++ [dep_ID d]) (use ++ [dep_ID d])
      end
  end.

Record ResolveEvent := {
  Complete : bool;
  Contents : string;
  NoChange : bool }.

Record RunReturn := {
  run_tmpl : Template;
  run_watcher : Watcher;
  run_store : Store;
  event : ResolveEvent }.

Definition isNil {A} (l : list A) : bool :=
  match l with [] => true | _ => false end.

Definition sameBytes (last : option string) (out : string) : bool :=
  match last with
  | Some b => String.eqb b out
  | None => false
  end.

(** Modelled from the spec: Resolver.Run is declared in resolver.go, which
    is not under src; src holds only callers of it.  The steps are those
    of the specification: Mark; execute the template; Sweep; with missing
    values the event is {Complete: false}; with the bytes the template
    emitted last the event is {Complete: true, NoChange: true}; otherwise
    the bytes become the last emitted ones and the event is
    {Complete: true, NoChange: false, Contents: bytes}.  Every complete
    event carries the bytes of its pass as Contents, the NoChange event
    too: the specification has two consecutive runs yield identical
    Contents, the second being a NoChange.  An event that is not complete
    has no Contents. *)
Definition Run (t : Template) (w : Watcher) (st : Store) : RunReturn :=
  let w := Mark (tmpl_ID t) w in
  let p := execute (tmpl_ID t) (body t) w st [] [] in
  let w := Sweep (tmpl_ID t) (pass_watcher p) in
  if negb (isNil (missing p)) then
    {| run_tmpl := t; run_watcher := w; run_store := pass_store p;
       event := {| Complete := false; Contents := ""; NoChange := false |} |}
  else if sameBytes (lastEmitted t) (output p) then
    {| run_tmpl := t; run_watcher := w; run_store := pass_store p;
       event := {| Complete := true; Contents := output p;
                   NoChange := true |} |}
  else
    {| run_tmpl := {| tmpl_ID := tmpl_ID t; body := body t;
                      lastEmitted := Some (output p) |};
       run_watcher := w; run_store := pass_store p;
       event := {| Complete := true; Contents := output p;
                   NoChange := false |} |}.

(** Two consecutive runs: the second starts where the first ended, and
    nothing is saved to the store in between. *)
Definition RunTwice (t : Template) (w : Watcher) (st : Store)
    : RunReturn * RunReturn :=
  let r1 := Run t w st in
  (r1, Run (run_tmpl r1) (run_watcher r1) (run_store r1)).

(** *** Sample templates *)

Definition services : Dependency := {| dep_ID := "catalog.services"; CanShare := true |}.

Definition constant : Template :=
  {| tmpl_ID := "constant"; body := Emit "hello"; lastEmitted := None |}.

Definition listing : Template :=
  {| tmpl_ID := "listing";
     body := Look services (fun v => Emit ("services: " +:+ v));
     lastEmitted := None |}.

(** The pass of a run: the execution of the body after Mark. *)
Definition pass (t : Template) (w : Watcher) (st : Store) : Pass :=
  execute (tmpl_ID t) (body t) (Mark (tmpl_ID t) w) st [] [].

(** The store after the services have been published. *)
Definition published : Store := Save "catalog.services" "web" NewStore.

End Resolver.

(** ** The life of a health query: what is built, and what is called on it *)

Module HealthServiceLife.

Import Chan HealthService.

Section Life.

Context {ext : Externals}.

(** The names of the filter clause of a match, trimmed. *)
Definition names (m : Groups) : list string :=
  map GoString.TrimSpace (GoString.Split "," (m_filter m)).

(** The health states a match asks for, in the order of the clause:
    passing alone when there is no clause. *)
Definition named (m : Groups) : list string :=
  if String.eqb (m_filter m) "" then [HealthPassing]
  else List.filter isHealthState (names m).

(** The filters of the query a match gives when no name is refused. *)
Definition wanted (m : Groups) : list string :=
  if String.eqb (m_filter m) "" then [HealthPassing]
  else GoString.SortStrings (List.filter isHealthState (names m)).

(** The query healthServiceQuery builds from a match. *)
Definition built (m : Groups) (c : bool) : HealthServiceQuery :=
  {| stopCh := Chan.make 1; dc := m_dc m; filters := wanted m;
     name := m_name m; near := m_near m; tag := m_tag m; connect := c;
     opts := zeroQueryOptions |}.

(** What a watcher does with a dependency. *)
Inductive call :=
| CallSetOptions (o : QueryOptions)
| CallFetch (clients : Clients)
| CallStop.

Definition step (d : HealthServiceQuery) (c : call) : outcome HealthServiceQuery :=
  match c with
  | CallSetOptions o => Returned (SetOptions d o)
  | CallFetch clients => Returned (after (Fetch d clients))
  | CallStop => Stop d
  end.

(** The calls in turn, up to the first panic. *)
Fixpoint steps (d : HealthServiceQuery) (cs : list call) : outcome HealthServiceQuery :=
  match cs with
  | [] => Returned d
  | c :: rest =>
      match step d c with
      | Returned d' => steps d' rest
      | Panicked msg => Panicked msg
      end
  end.

(** The number of Stop calls among the calls. *)
Fixpoint stops (cs : list call) : nat :=
  match cs with
  | [] => 0
  | CallStop :: rest => S (stops rest)
  | _ :: rest => stops rest
  end.

(** Two queries that ask for the same thing: all fields but the stop
    channel and the options agree. *)
Definition sameQuery (d d' : HealthServiceQuery) : Prop :=
  dc d' = dc d /\ filters d' = filters d /\ name d' = name d
  /\ near d' = near d /\ tag d' = tag d /\ connect d' = connect d.

End Life.

End HealthServiceLife.

Module SampleLife.

Import HealthService HealthServiceLife Sample.

(** The query for "web|any": every state is wanted. *)
Definition webAny : HealthServiceQuery :=
  {| stopCh := Chan.make 1; dc := ""; filters := [HealthAny];
     name := "web"; near := ""; tag := ""; connect := false;
     opts := zeroQueryOptions |}.

(** The query for "web|,": a filter clause that names nothing. *)
Definition webNone : HealthServiceQuery :=
  {| stopCh := Chan.make 1; dc := ""; filters := [];
     name := "web"; near := ""; tag := ""; connect := false;
     opts := zeroQueryOptions |}.

(** The reply of [server] in another order. *)
Definition serverShuffled : Clients :=
  fun _ => inr ([ entry "n1" "10.0.0.1" "web0" "" "critical";
                  entry "n1" "10.0.0.1" "web1" "10.1.0.1" "passing";
                  entry "n2" "10.0.0.2" "web2" "" "passing" ],
                {| api.LastIndex := 8; api.LastContact := 0 |}).

Definition serverReply : list api.ServiceEntry :=
  [ entry "n2" "10.0.0.2" "web2" "" "passing";
    entry "n1" "10.0.0.1" "web1" "10.1.0.1" "passing";
    entry "n1" "10.0.0.1" "web0" "" "critical" ].

Definition shuffledReply : list api.ServiceEntry :=
  [ entry "n1" "10.0.0.1" "web0" "" "critical";
    entry "n1" "10.0.0.1" "web1" "10.1.0.1" "passing";
    entry "n2" "10.0.0.2" "web2" "" "passing" ].

(** A server that fails. *)
Definition serverDown : Clients := fun _ => inl "connection refused".

(** Two instances registered under one node and one ID. *)
Definition twins : list dep.HealthService :=
  [ toHealthService (entry "n1" "10.0.0.1" "web1" "10.1.0.1" "passing");
    toHealthService (entry "n1" "10.0.0.1" "web1" "10.1.0.2" "passing") ].

(** A life with one Stop and a life with two. *)
Definition oneStop : list call :=
  [CallFetch server; CallSetOptions ("dc2", ""); CallStop; CallFetch server].

Definition twoStops : list call :=
  [CallFetch server; CallStop; CallFetch server; CallStop; CallFetch server].

(** What Fetch returns for [webAny] from [server], and for [web] from
    [serverShuffled]. *)
Definition anyList : list dep.HealthService :=
  Eval vm_compute in
    match result (Fetch webAny server) with inr (l, _) => l | inl _ => [] end.

Definition shuffledList : list dep.HealthService :=
  Eval vm_compute in
    match result (Fetch web serverShuffled) with
    | inr (l, _) => l
    | inl _ => []
    end.

End SampleLife.

(** ** example_test.go: rendering several templates once *)

Module Examples.

(** What the example reads of a ResolveEvent. *)
Record ResolveEvent := { Complete : bool; Contents : string }.

(** How RenderMultipleOnce ends: it returns the joined results;
    log.Fatal ends the process with the error of Run or Wait; a slice
    expression [s[low:]] with [low] beyond the length panics. *)
Inductive outcome :=
| Returned (s : string)
| Fatal (err : string)
| PanicSliceBounds (low high : nat)
| PanicIndex (i n : nat)
| OutOfFuel.

Section Render.

(** The templates, and the watcher with everything behind it; the
    resolver and the watcher are what other files declare. *)
Context {Template World : Type}.
Variable Run : World -> Template -> World * (string + ResolveEvent).
Variable Wait : World -> World * option string.

(** The slice [templates]: its backing array, of which the first [len]
    elements are the slice, the results so far and the watcher. *)
Record state := {
  arr : list Template;
  len : nat;
  results : list string;
  world : World }.

(** append(templates[:i], templates[(i+1):]...): the elements behind
    position [i] move one place to the front in the backing array, which
    has room for them; what lies at and behind the new length stays. *)
Definition removeAt (i : nat) (st : state) : list Template :=
  (firstn i (arr st)
   ++ firstn (len st - (i + 1)) (skipn (i + 1) (arr st))
   ++ skipn (len st - 1) (arr st))%list.

(** The body of [for i, tmpl := range templates] from position [i] on,
    [todo] positions being left.  The range was fixed when the loop
    began; [tmpl] is read from the backing array when its turn comes. *)
Fixpoint pass (i todo : nat) (st : state) : state + outcome :=
  match todo with
  | O => inl st
  | S todo' =>
      match nth_error (arr st) i with
      | None => inr (PanicIndex i (length (arr st)))
      | Some tmpl =>
          let (w, r) := Run (world st) tmpl in
          match r with
          | inl err => inr (Fatal err)
          | inr re =>
              if Complete re then
                if (i + 1 <=? len st)%nat then
                  pass (S i) todo'
                       {| arr := removeAt i st; len := len st - 1;
                          results := (results st ++ [Contents re])%list;
                          world := w |}
                else inr (PanicSliceBounds (i + 1) (len st))
              else
                pass (S i) todo'
                     {| arr := arr st; len := len st; results := results st;
                        world := w |}
          end
      end
  end.

(** Calls of Run one after the other: each starts from the watcher the
    one before left, is given a template and returns an event. *)
Inductive calls : World -> list (Template * ResolveEvent) -> World -> Prop :=
| calls_nil w : calls w [] w
| calls_cons w tmpl w' re rest w'' :
    Run w tmpl = (w', inr re) ->
    calls w' rest w'' ->
    calls w ((tmpl, re) :: rest) w''.

(** Of the calls, those whose event is complete. *)
Definition completed (cs : list (Template * ResolveEvent))
    : list (Template * ResolveEvent) :=
  List.filter (fun c => Complete (snd c)) cs.

(** The outer [for]: a pass over the templates, the end when none is
    left, Wait otherwise. *)
Fixpoint loop (fuel : nat) (st : state) : outcome :=
  match fuel with
  | O => OutOfFuel
  | S fuel' =>
      match pass 0 (len st) st with
      | inr o => o
      | inl st' =>
          if (len st' =? 0)%nat then Returned (GoString.Join ", " (results st'))
          else
            let (w, err) := Wait (world st') in
            match err with
            | Some e => Fatal e
            | None =>
                loop fuel' {| arr := arr st'; len := len st';
                              results := results st'; world := w |}
            end
      end
  end.

(** RenderMultipleOnce from the point where the templates have been made
    and registered. *)
Definition RenderMultipleOnce (fuel : nat) (w : World)
    (templates : list Template) : outcome :=
  loop fuel {| arr := templates; len := length templates; results := [];
               world := w |}.

End Render.

(** A watcher counted by the number of Wait calls behind it: the nodes
    are known at once, the services after the first Wait. *)
Definition sampleRun (w : nat) (t : string) : nat * (string + ResolveEvent) :=
  if String.eqb t "nodes" then
    (w, inr {| Complete := true; Contents := "node at 127.0.0.1" |})
  else if (1 <=? w)%nat then
    (w, inr {| Complete := true; Contents := "service consul at 127.0.0.1" |})
  else (w, inr {| Complete := false; Contents := "" |}).

Definition sampleWait (w : nat) : nat * option string := (S w, None).

Definition sampleState : @state string nat :=
  {| arr := ["services"; "nodes"]; len := 2; results := []; world := 0%nat |}.

End Examples.

(* ================================================================== *)
(** * Properties *)
(* ================================================================== *)

(** ** The order on strings *)

Module GoStringFacts.

Import GoString.

Lemma ascii_compare_refl a : Ascii.compare a a = Eq.
Proof. unfold Ascii.compare. apply N.compare_refl. Qed.

Lemma ascii_compare_lt_trans a b c :
  Ascii.compare a b = Lt -> Ascii.compare b c = Lt -> Ascii.compare a c = Lt.
Proof. unfold Ascii.compare. rewrite !N.compare_lt_iff. lia. Qed.

Lemma compare_refl s : String.compare s s = Eq.
Proof.
  induction s as [|a s IH]; simpl; [reflexivity|].
  now rewrite ascii_compare_refl.
Qed.

Lemma compare_lt_trans s : forall t u,
  String.compare s t = Lt -> String.compare t u = Lt -> String.compare s u = Lt.
Proof.
  induction s as [|a s IH]; intros [|b t] [|c u]; simpl; try congruence.
  destruct (Ascii.compare a b) eqn:Hab; try discriminate.
  - apply Ascii.compare_eq_iff in Hab. subst b.
    destruct (Ascii.compare a c); try congruence. apply IH.
  - intros _. destruct (Ascii.compare b c) eqn:Hbc; try discriminate.
    + apply Ascii.compare_eq_iff in Hbc. subst c. now rewrite Hab.
    + now rewrite (ascii_compare_lt_trans _ _ _ Hab Hbc).
Qed.

Lemma compare_gt_lt s t : String.compare s t = Gt <-> String.compare t s = Lt.
Proof.
  rewrite (String.compare_antisym t s).
  destruct (String.compare s t); simpl; split; congruence.
Qed.

Lemma lt_trans s t u : lt s t -> lt t u -> lt s u.
Proof. apply compare_lt_trans. Qed.

Lemma le_refl s : le s s.
Proof. unfold le. now rewrite compare_refl. Qed.

Lemma le_cases s t : le s t <-> lt s t \/ s = t.
Proof.
  unfold le, lt. split.
  - destruct (String.compare s t) eqn:E; intros H.
    + right. now apply String.compare_eq_iff.
    + now left.
    + congruence.
  - intros [H | ->]; [congruence | now rewrite compare_refl].
Qed.

Lemma le_trans s t u : le s t -> le t u -> le s u.
Proof.
  rewrite !le_cases. intros [H1 | ->] [H2 | ->]; eauto using lt_trans.
Qed.

Lemma lt_le_trans s t u : lt s t -> le t u -> lt s u.
Proof. rewrite le_cases. intros H1 [H2 | ->]; eauto using lt_trans. Qed.

Lemma le_total s t : le s t \/ le t s.
Proof.
  unfold le. rewrite (String.compare_antisym t s).
  destruct (String.compare s t); simpl; [left | left | right]; congruence.
Qed.

Lemma lt_irrefl s : ~ lt s s.
Proof. unfold lt. now rewrite compare_refl. Qed.

Lemma ltb_lt s t : String.ltb s t = true <-> lt s t.
Proof.
  unfold String.ltb, lt.
  destruct (String.compare s t); split; congruence.
Qed.

Lemma leb_le s t : String.leb s t = true <-> le s t.
Proof.
  unfold String.leb, le.
  destruct (String.compare s t); split; congruence.
Qed.

End GoStringFacts.

(** ** Sorting with a total, transitive comparison *)

Module SortFacts.

Import GoSort.

Section Sorting.

Context {A : Type} (less : A -> A -> bool).
Hypothesis less_total : forall x y, less x y = false -> less y x = true.
Hypothesis less_trans :
  forall x y z, less x y = true -> less y z = true -> less x z = true.

Let ge (later earlier : A) : Prop := less earlier later = true.
Let le (earlier later : A) : Prop := less earlier later = true.

Lemma sink_perm x front : Permutation (sink less x front) (x :: front).
Proof.
  induction front as [|y rest IH]; simpl; [reflexivity|].
  destruct (less x y); [|reflexivity].
  rewrite IH. apply perm_swap.
Qed.

Lemma sink_sorted x front :
  StronglySorted ge front -> StronglySorted ge (sink less x front).
Proof.
  induction 1 as [|y rest Hs IH Hall]; simpl.
  - repeat constructor.
  - destruct (less x y) eqn:Hxy.
    + constructor; [exact IH|].
      eapply Permutation_Forall; [symmetry; apply sink_perm|].
      constructor; [exact Hxy | exact Hall].
    + apply less_total in Hxy.
      constructor; [now constructor|].
      constructor; [exact Hxy|].
      eapply Forall_impl; [exact Hall|].
      intros b Hb. unfold ge in *. eauto.
Qed.

Lemma sorted_snoc (R : A -> A -> Prop) l x :
  StronglySorted R l -> Forall (fun a => R a x) l ->
  StronglySorted R (l ++ [x]).
Proof.
  induction 1 as [|y rest Hs IH Hall]; simpl; intros Hx.
  - repeat constructor.
  - inversion Hx as [|? ? Hy Hrest]; subst.
    constructor; [now apply IH|].
    apply Forall_app. split; [exact Hall | now constructor].
Qed.

Lemma sorted_rev front : StronglySorted ge front -> StronglySorted le (rev front).
Proof.
  induction 1 as [|y rest Hs IH Hall]; simpl; [constructor|].
  apply sorted_snoc; [exact IH|].
  apply Forall_rev. exact Hall.
Qed.

Lemma fold_sink_sorted data : forall front,
  StronglySorted ge front ->
  StronglySorted ge (fold_left (fun f x => sink less x f) data front).
Proof.
  induction data as [|x data IH]; simpl; intros front Hf; [exact Hf|].
  apply IH. now apply sink_sorted.
Qed.

Lemma fold_sink_perm data : forall front,
  Permutation (fold_left (fun f x => sink less x f) data front)
              (rev data ++ front).
Proof.
  induction data as [|x data IH]; simpl; intros front; [reflexivity|].
  rewrite IH, sink_perm, <- app_assoc. simpl.
  apply Permutation_app_head. reflexivity.
Qed.

Lemma insertionSort_sorted data : StronglySorted le (insertionSort less data).
Proof.
  unfold insertionSort. apply sorted_rev. apply fold_sink_sorted. constructor.
Qed.

Lemma insertionSort_perm data : Permutation (insertionSort less data) data.
Proof.
  unfold insertionSort. rewrite <- Permutation_rev, fold_sink_perm.
  rewrite app_nil_r. symmetry. apply Permutation_rev.
Qed.

Lemma symMerge_nil_r first : symMerge less first [] = first.
Proof. now destruct first. Qed.

Lemma symMerge_cons x first y second :
  symMerge less (x :: first) (y :: second)
  = if less y x then y :: symMerge less (x :: first) second
    else x :: symMerge less first (y :: second).
Proof. reflexivity. Qed.

Lemma symMerge_perm first : forall second,
  Permutation (symMerge less first second) (first ++ second).
Proof.
  induction first as [|x first IHf]; intros second; [reflexivity|].
  induction second as [|y second IHs].
  - rewrite symMerge_nil_r, app_nil_r. reflexivity.
  - rewrite symMerge_cons. destruct (less y x).
    + rewrite IHs. apply Permutation_middle.
    + rewrite IHf. reflexivity.
Qed.

Lemma symMerge_sorted first : forall second,
  StronglySorted le first -> StronglySorted le second ->
  StronglySorted le (symMerge less first second).
Proof.
  induction first as [|x first IHf]; intros second Hf Hs; [exact Hs|].
  induction second as [|y second IHs].
  - now rewrite symMerge_nil_r.
  - rewrite symMerge_cons.
    inversion Hf as [|? ? Hf' Hfx]; subst.
    inversion Hs as [|? ? Hs' Hsy]; subst.
    destruct (less y x) eqn:Hyx.
    + constructor; [now apply IHs|].
      eapply Permutation_Forall; [symmetry; apply symMerge_perm|].
      apply Forall_app. split; [|exact Hsy].
      constructor; [exact Hyx|].
      eapply Forall_impl; [exact Hfx|]. intros b Hb. unfold le in *. eauto.
    + apply less_total in Hyx.
      constructor; [now apply IHf|].
      eapply Permutation_Forall; [symmetry; apply symMerge_perm|].
      apply Forall_app. split; [exact Hfx|].
      constructor; [exact Hyx|].
      eapply Forall_impl; [exact Hsy|]. intros b Hb. unfold le in *. eauto.
Qed.

Lemma blocksOf_concat fuel : forall data : list A,
  (length data <= fuel)%nat -> concat (blocksOf fuel data) = data.
Proof.
  induction fuel as [|fuel IH]; intros [|x data] Hl; simpl in *; try reflexivity.
  - lia.
  - f_equal. rewrite IH.
    + apply firstn_skipn.
    + rewrite length_skipn. lia.
Qed.

Lemma pairs_ind (P : list (list A) -> Prop) :
  P [] -> (forall b, P [b]) ->
  (forall b1 b2 rest, P rest -> P (b1 :: b2 :: rest)) ->
  forall blocks, P blocks.
Proof.
  intros H0 H1 H2 blocks.
  assert (H : P blocks /\ forall b, P (b :: blocks)).
  { induction blocks as [|b' rest [IHa IHb]]; split; auto. }
  exact (proj1 H).
Qed.

Lemma mergePairs_concat blocks :
  Permutation (concat (mergePairs less blocks)) (concat blocks).
Proof.
  induction blocks as [|b|b1 b2 rest IH] using pairs_ind; simpl;
    try reflexivity.
  rewrite symMerge_perm, app_assoc. now apply Permutation_app_head.
Qed.

Lemma mergePairs_sorted blocks :
  Forall (StronglySorted le) blocks ->
  Forall (StronglySorted le) (mergePairs less blocks).
Proof.
  induction blocks as [|b|b1 b2 rest IH] using pairs_ind; simpl; intros H;
    try exact H.
  inversion H as [|? ? H1 H']; subst. inversion H' as [|? ? H2 H'']; subst.
  constructor; [now apply symMerge_sorted | now apply IH].
Qed.

Lemma mergePairs_length blocks :
  (2 <= length blocks -> length (mergePairs less blocks) < length blocks)%nat
  /\ (length (mergePairs less blocks) <= length blocks)%nat.
Proof.
  induction blocks as [|b|b1 b2 rest [_ IH]] using pairs_ind; simpl; lia.
Qed.

Lemma mergeBlocks_sorted fuel : forall blocks,
  (length blocks <= S fuel)%nat ->
  Forall (StronglySorted le) blocks ->
  StronglySorted le (mergeBlocks less fuel blocks)
  /\ Permutation (mergeBlocks less fuel blocks) (concat blocks).
Proof.
  induction fuel as [|fuel IH]; intros [|b1 [|b2 rest]] Hl Hs; simpl in *;
    try lia.
  - split; constructor.
  - inversion Hs; subst. rewrite app_nil_r. split; [assumption | reflexivity].
  - split; constructor.
  - inversion Hs; subst. rewrite app_nil_r. split; [assumption | reflexivity].
  - destruct (IH (symMerge less b1 b2 :: mergePairs less rest)) as [H1 H2].
    + simpl. pose proof (mergePairs_length rest) as [_ H]. lia.
    + apply (mergePairs_sorted (b1 :: b2 :: rest)). exact Hs.
    + split; [exact H1|]. rewrite H2. simpl.
      rewrite symMerge_perm, mergePairs_concat, app_assoc. reflexivity.
Qed.

Lemma insertionSort_blocks_perm (blocks : list (list A)) :
  Permutation (concat (map (insertionSort less) blocks)) (concat blocks).
Proof.
  induction blocks as [|b bs IH]; simpl; [reflexivity|].
  now rewrite insertionSort_perm, IH.
Qed.

Lemma Stable_sorted_perm data :
  StronglySorted le (Stable less data)
  /\ Permutation (Stable less data) data.
Proof.
  unfold Stable.
  destruct (mergeBlocks_sorted
              (length (map (insertionSort less) (blocksOf (length data) data)))
              (map (insertionSort less) (blocksOf (length data) data)))
    as [H1 H2].
  - lia.
  - apply Forall_map, Forall_forall. intros b _. apply insertionSort_sorted.
  - split; [exact H1|].
    rewrite H2, insertionSort_blocks_perm, blocksOf_concat by lia.
    reflexivity.
Qed.

End Sorting.

(** Three blocks: forty-five numbers in descending order come out ascending. *)
Example Stable_three_blocks : Stable Nat.leb (rev (seq 0 45)) = seq 0 45.
Proof. reflexivity. Qed.

(** Elements that compare equal both ways: the later one comes first. *)
Example Stable_ties :
  Stable (fun x y => Nat.leb (fst x) (fst y)) [(1, "a"); (0, "b"); (1, "c")]%nat
  = [(0, "b"); (1, "c"); (1, "a")]%nat.
Proof. reflexivity. Qed.

End SortFacts.

(** ** The health service query *)

Module HealthServiceFacts.

Import Chan HealthService GoString GoStringFacts.

Section Facts.

Context {ext : Externals}.

Lemma Less_spec x y : Less x y = true <-> NodeThenID_le x y.
Proof.
  unfold Less, NodeThenID_le.
  destruct (String.ltb (dep.Node x) (dep.Node y)) eqn:Hlt.
  - apply ltb_lt in Hlt. tauto.
  - assert (Hn : ~ lt (dep.Node x) (dep.Node y)).
    { rewrite <- ltb_lt. congruence. }
    destruct (String.eqb_spec (dep.Node x) (dep.Node y)) as [He | Hne].
    + rewrite leb_le. tauto.
    + split; [discriminate | tauto].
Qed.

Lemma NodeThenID_le_total x y : NodeThenID_le x y \/ NodeThenID_le y x.
Proof.
  unfold NodeThenID_le.
  destruct (le_total (dep.Node x) (dep.Node y)) as [H | H];
    apply le_cases in H; destruct H as [H | H]; auto.
  - destruct (le_total (dep.ID x) (dep.ID y)); auto.
  - destruct (le_total (dep.ID x) (dep.ID y)); auto.
Qed.

Lemma NodeThenID_le_trans x y z :
  NodeThenID_le x y -> NodeThenID_le y z -> NodeThenID_le x z.
Proof.
  unfold NodeThenID_le.
  intros [H1 | [E1 H1]] [H2 | [E2 H2]].
  - left. eauto using lt_trans.
  - left. now rewrite <- E2.
  - left. now rewrite E1.
  - right. split; [congruence | eauto using le_trans].
Qed.

Lemma Less_total x y : Less x y = false -> Less y x = true.
Proof.
  intros H. apply Less_spec.
  destruct (NodeThenID_le_total x y) as [Hxy | Hyx]; [|exact Hyx].
  apply Less_spec in Hxy. congruence.
Qed.

Lemma Less_trans x y z :
  Less x y = true -> Less y z = true -> Less x z = true.
Proof. rewrite !Less_spec. apply NodeThenID_le_trans. Qed.

Lemma Stable_Less_sorted l :
  StronglySorted NodeThenID_le (GoSort.Stable Less l).
Proof.
  pose proof (proj1 (SortFacts.Stable_sorted_perm Less Less_total Less_trans l))
    as H.
  induction H as [|a rest Hs IH Hall]; constructor; [exact IH|].
  eapply Forall_impl; [exact Hall|]. intros b. apply Less_spec.
Qed.

Lemma buildList_filter d entries :
  buildList d entries = map toHealthService (List.filter (accepted d) entries).
Proof.
  induction entries as [|e rest IH]; simpl; [reflexivity|].
  destruct (accepted d e); simpl; now rewrite IH.
Qed.

(** What a successful Fetch returns, in terms of the reply of the server. *)
Lemma Fetch_success d clients l rm :
  result (Fetch d clients) = inr (l, rm) ->
  exists entries qm,
    clients (request d) = inr (entries, qm)
    /\ l = (if String.eqb (near d) "" then GoSort.Stable Less (buildList d entries)
            else buildList d entries)
    /\ rm = {| dep.LastIndex := api.LastIndex qm;
               dep.LastContact := api.LastContact qm |}.
Proof.
  unfold Fetch.
  destruct (try_recv (stopCh d)); simpl; [discriminate|].
  destruct (clients (request d)) as [err | [entries qm]]; simpl;
    [discriminate|].
  intros H. injection H as <- <-. exists entries, qm. auto.
Qed.

Lemma try_recv_closed ch :
  closed ch = true ->
  exists ch', try_recv ch = Some ch' /\ closed ch' = true.
Proof.
  intros Hc. unfold try_recv. destruct ch as [[|n] c cl]; simpl in *.
  - subst cl. eexists. split; reflexivity.
  - eexists. split; [reflexivity | exact Hc].
Qed.

Lemma Fetch_stopped d clients :
  closed (stopCh d) = true ->
  result (Fetch d clients) = inl ErrStopped
  /\ issued (Fetch d clients) = []
  /\ closed (stopCh (after (Fetch d clients))) = true.
Proof.
  intros Hc. destruct (try_recv_closed _ Hc) as (ch' & Hr & Hc').
  unfold Fetch. rewrite Hr. simpl. auto.
Qed.

Lemma fetches_stopped calls : forall d,
  closed (stopCh d) = true ->
  Forall (fun r => result r = inl ErrStopped /\ issued r = [])
         (fetches d calls).
Proof.
  induction calls as [|clients rest IH]; intros d Hc; simpl; [constructor|].
  destruct (Fetch_stopped d clients Hc) as (Hr & Hi & Hc').
  constructor; [split; assumption|]. now apply IH.
Qed.

Lemma refused_dec f : {refused f} + {~ refused f}.
Proof.
  unfold refused. destruct (isHealthState f).
  - right. intros [H _]. discriminate H.
  - destruct (String.eqb_spec f "") as [He | Hne].
    + right. intros [_ H]. now elim H.
    + left. now split.
Qed.

(** The leftmost refused piece of a list that has one. *)
Lemma first_refused pieces :
  Exists (fun piece => refused (TrimSpace piece)) pieces ->
  exists before p rest,
    pieces = (before ++ p :: rest)%list
    /\ Forall (fun q => ~ refused (TrimSpace q)) before
    /\ refused (TrimSpace p).
Proof.
  induction pieces as [|piece rest IH]; intros Hex; [inversion Hex|].
  destruct (refused_dec (TrimSpace piece)) as [Hr | Hn].
  - exists [], piece, rest. repeat split; auto; apply Hr.
  - destruct IH as (before & p & rest' & -> & Hb & Hp).
    { inversion Hex; subst; [contradiction | assumption]. }
    exists (piece :: before), p, rest'.
    split; [reflexivity|]. split; [now constructor | exact Hp].
Qed.

(** The loop passes the pieces it keeps or skips and leaves with the
    first piece it refuses. *)
Lemma collectFilters_leaves s before p rest : forall acc,
  Forall (fun q => ~ refused (TrimSpace q)) before ->
  refused (TrimSpace p) ->
  collectFilters s (before ++ p :: rest) acc
  = inl (ErrInvalidFilter (TrimSpace p) s).
Proof.
  induction before as [|b before IH]; intros acc Hb [Hk Hne]; simpl.
  - rewrite Hk. now destruct (String.eqb_spec (TrimSpace p) "").
  - inversion Hb as [|? ? Hn Hb']; subst.
    destruct (isHealthState (TrimSpace b)) eqn:Hs;
      [now apply IH|].
    destruct (String.eqb_spec (TrimSpace b) "") as [He | Hne'];
      [now apply IH|].
    elim Hn. now split.
Qed.

(** C1 (as amended): Stop is not idempotent.  On a dependency that has
    not been stopped, Stop returns, closes the stop channel and leaves
    every other field as it was; Stop on the dependency so obtained does
    not return: closing the closed channel panics. *)
Theorem Stop_once_then_panics (d : HealthServiceQuery) :
  closed (stopCh d) = false ->
  exists d',
    Stop d = Returned d'
    /\ d' = withStopCh d (Chan.mk (buffered (stopCh d)) (capacity (stopCh d)) true)
    /\ Stop d' = Panicked "close of closed channel".
Proof.
  intros Hc. eexists. unfold Stop at 1, close. rewrite Hc.
  split; [reflexivity|]. split; reflexivity.
Qed.

(** C2: once Stop has returned, every later Fetch on the dependency
    returns ErrStopped and issues no request: the stop channel is polled
    before the request is sent. *)
Theorem Fetch_after_Stop (d d' : HealthServiceQuery) (calls : list Clients) :
  Stop d = Returned d' ->
  Forall (fun r => result r = inl ErrStopped /\ issued r = [])
         (fetches d' calls).
Proof.
  unfold Stop, close. destruct (closed (stopCh d)); [discriminate|].
  intros H. injection H as <-. now apply fetches_stopped.
Qed.

(** C5: the list of a successful Fetch holds the accepted entries of the
    reply; with an empty [near] it is sorted by node name, then service
    ID, in non-decreasing byte-wise order; with [near] set it is in the
    order of the reply. *)
Theorem Fetch_order (d : HealthServiceQuery) (clients : Clients)
    (l : list dep.HealthService) (rm : dep.ResponseMetadata) :
  result (Fetch d clients) = inr (l, rm) ->
  exists entries qm,
    clients (request d) = inr (entries, qm)
    /\ (near d = "" ->
        StronglySorted NodeThenID_le l
        /\ Permutation l (map toHealthService (List.filter (accepted d) entries)))
    /\ (near d <> "" ->
        l = map toHealthService (List.filter (accepted d) entries)).
Proof.
  intros H. apply Fetch_success in H as (entries & qm & Hc & Hl & _).
  exists entries, qm. split; [exact Hc|].
  rewrite buildList_filter in Hl.
  destruct (String.eqb_spec (near d) "") as [He | Hne]; subst l.
  - split; [|congruence]. intros _. split.
    + apply Stable_Less_sorted.
    + apply (SortFacts.Stable_sorted_perm Less Less_total Less_trans).
  - split; [congruence | reflexivity].
Qed.

(** C6 (as amended): a string the regular expression rejects gives the
    invalid-format error; a matched string without filter clause gives a
    query whose filters are exactly [passing]; a matched string whose
    filter clause names, between its commas and after trimming, something
    that is neither empty nor a health state gives no query but the
    invalid-filter error, and the name in that error is the first such
    piece of the clause: every piece to its left is empty or a health
    state. *)
Theorem healthServiceQuery_filters (s : string) (connect : bool) :
  (HealthServiceQueryRe s = None ->
   healthServiceQuery s connect = inl (ErrInvalidFormat s))
  /\ (forall m, HealthServiceQueryRe s = Some m -> m_filter m = "" ->
      exists q, healthServiceQuery s connect = inr q
                /\ filters q = [HealthPassing])
  /\ (forall m, HealthServiceQueryRe s = Some m ->
      Exists (fun piece => refused (TrimSpace piece)) (Split "," (m_filter m)) ->
      exists before p rest,
        Split "," (m_filter m) = (before ++ p :: rest)%list
        /\ Forall (fun q => ~ refused (TrimSpace q)) before
        /\ refused (TrimSpace p)
        /\ healthServiceQuery s connect
           = inl (ErrInvalidFilter (TrimSpace p) s)).
Proof.
  unfold healthServiceQuery. split; [|split].
  - intros ->. reflexivity.
  - intros m -> ->. simpl. eexists. split; reflexivity.
  - intros m -> Hex.
    destruct (String.eqb_spec (m_filter m) "") as [He | Hne]; simpl.
    + rewrite He in Hex. simpl in Hex.
      inversion Hex as [? ? [_ Hr] | ? ? Hr]; subst;
        [now elim Hr | inversion Hr].
    + destruct (first_refused _ Hex) as (before & p & rest & Heq & Hb & Hp).
      exists before, p, rest.
      split; [exact Heq|]. split; [exact Hb|]. split; [exact Hp|].
      rewrite Heq, (collectFilters_leaves s before p rest [] Hb Hp).
      reflexivity.
Qed.

(** C10: every entry of the list of a successful Fetch comes from an
    accepted entry of the reply; its Address is the address of the service
    when that is not empty and the address of the node otherwise, so it is
    empty only when the node has no address either. *)
Theorem Fetch_address (d : HealthServiceQuery) (clients : Clients)
    (l : list dep.HealthService) (rm : dep.ResponseMetadata)
    (h : dep.HealthService) :
  result (Fetch d clients) = inr (l, rm) ->
  In h l ->
  exists entries qm entry,
    clients (request d) = inr (entries, qm)
    /\ In entry entries /\ accepted d entry = true
    /\ h = toHealthService entry
    /\ (api.ServiceAddress (api.EntryService entry) <> "" ->
        dep.Address h = api.ServiceAddress (api.EntryService entry))
    /\ (api.ServiceAddress (api.EntryService entry) = "" ->
        dep.Address h = api.Address (api.EntryNode entry))
    /\ (dep.NodeAddress h <> "" -> dep.Address h <> "").
Proof.
  intros H Hin. apply Fetch_success in H as (entries & qm & Hc & Hl & _).
  rewrite buildList_filter in Hl.
  assert (Hin' : In h (map toHealthService (List.filter (accepted d) entries))).
  { subst l. destruct (String.eqb (near d) ""); [|exact Hin].
    eapply Permutation_in; [|exact Hin].
    apply (SortFacts.Stable_sorted_perm Less Less_total Less_trans). }
  apply in_map_iff in Hin' as (entry & <- & Hf).
  apply filter_In in Hf as [He Ha].
  exists entries, qm, entry. repeat split; auto; simpl.
  - intros Hne. destruct (String.eqb_spec (api.ServiceAddress (api.EntryService entry)) "");
      [contradiction | reflexivity].
  - intros ->. reflexivity.
  - intros Hn.
    destruct (String.eqb_spec (api.ServiceAddress (api.EntryService entry)) "");
      assumption.
Qed.

End Facts.

(** *** The properties on the sample environment *)

Import Sample.

Example NewHealthServiceQuery_web : NewHealthServiceQuery "web" = inr web.
Proof. reflexivity. Qed.

Example Fetch_web : result (Fetch web server) = inr (webList, webMeta).
Proof. reflexivity. Qed.

Example Fetch_web_ids : map dep.ID webList = ["web1"; "web2"].
Proof. reflexivity. Qed.

(** C1, as stated, fails: the second Stop on the query for "web" panics. *)
Lemma Stop_twice_counterexample :
  Stop web = Returned webStopped
  /\ Stop webStopped = Panicked "close of closed channel"
  /\ ~ (exists d, Stop webStopped = Returned d).
Proof.
  split; [reflexivity|]. split; [reflexivity|].
  intros [d H]. discriminate H.
Qed.

Lemma Stop_once_then_panics_witness :
  closed (stopCh web) = false
  /\ exists d',
       Stop web = Returned d'
       /\ d' = withStopCh web (Chan.mk 0 1 true)
       /\ Stop d' = Panicked "close of closed channel".
Proof.
  split; [reflexivity|]. exact (Stop_once_then_panics web eq_refl).
Defined.

Lemma Fetch_after_Stop_witness :
  Stop web = Returned webStopped
  /\ Forall (fun r => result r = inl ErrStopped /\ issued r = [])
            (fetches webStopped [server; server; server]).
Proof.
  split; [reflexivity|].
  exact (Fetch_after_Stop web webStopped [server; server; server] eq_refl).
Defined.

Lemma Fetch_order_witness :
  result (Fetch web server) = inr (webList, webMeta)
  /\ exists entries qm,
       server (request web) = inr (entries, qm)
       /\ (near web = "" ->
           StronglySorted NodeThenID_le webList
           /\ Permutation webList
                (map toHealthService (List.filter (accepted web) entries)))
       /\ (near web <> "" ->
           webList = map toHealthService (List.filter (accepted web) entries)).
Proof.
  split; [reflexivity|].
  exact (Fetch_order web server webList webMeta eq_refl).
Defined.

(** C6, as stated, fails: an unknown filter name gives the invalid-filter
    error, which is not the invalid-format error. *)
Lemma invalid_filter_counterexample :
  HealthServiceQueryRe "web|nope"
    = Some {| m_tag := ""; m_name := "web"; m_dc := ""; m_near := "";
              m_filter := "nope" |}
  /\ NewHealthServiceQuery "web|nope" = inl (ErrInvalidFilter "nope" "web|nope")
  /\ NewHealthServiceQuery "web|nope" <> inl (ErrInvalidFormat "web|nope").
Proof.
  split; [reflexivity|]. split; [reflexivity|]. discriminate.
Qed.

Lemma healthServiceQuery_filters_witness :
  NewHealthServiceQuery "web|" = inl (ErrInvalidFormat "web|")
  /\ (exists q, NewHealthServiceQuery "web" = inr q
                /\ filters q = [HealthPassing])
  /\ (exists before p rest,
        Split "," "passing,bad1,,bad2" = (before ++ p :: rest)%list
        /\ Forall (fun q => ~ refused (TrimSpace q)) before
        /\ refused (TrimSpace p)
        /\ NewHealthServiceQuery "web|passing,bad1,,bad2"
           = inl (ErrInvalidFilter (TrimSpace p) "web|passing,bad1,,bad2"))
  /\ NewHealthServiceQuery "web|passing,bad1,,bad2"
     = inl (ErrInvalidFilter "bad1" "web|passing,bad1,,bad2").
Proof.
  split; [|split; [|split]].
  - exact (proj1 (healthServiceQuery_filters "web|" false) eq_refl).
  - exact (proj1 (proj2 (healthServiceQuery_filters "web" false)) _ eq_refl eq_refl).
  - refine (proj2 (proj2 (healthServiceQuery_filters "web|passing,bad1,,bad2" false))
              _ eq_refl _).
    apply Exists_cons_tl, Exists_cons_hd. split; [reflexivity | discriminate].
  - reflexivity.
Defined.

Lemma Fetch_address_witness :
  result (Fetch web server) = inr (webList, webMeta)
  /\ In webFirst webList
  /\ dep.Address webFirst = "10.1.0.1"
  /\ exists entries qm entry,
       server (request web) = inr (entries, qm)
       /\ In entry entries /\ accepted web entry = true
       /\ webFirst = toHealthService entry
       /\ (api.ServiceAddress (api.EntryService entry) <> "" ->
           dep.Address webFirst = api.ServiceAddress (api.EntryService entry))
       /\ (api.ServiceAddress (api.EntryService entry) = "" ->
           dep.Address webFirst = api.Address (api.EntryNode entry))
       /\ (dep.NodeAddress webFirst <> "" -> dep.Address webFirst <> "").
Proof.
  split; [reflexivity|]. split; [left; reflexivity|]. split; [reflexivity|].
  exact (Fetch_address web server webList webMeta webFirst eq_refl
           (or_introl eq_refl)).
Defined.

Example Fetch_web_addresses : map dep.Address webList = ["10.1.0.1"; "10.0.0.2"].
Proof. reflexivity. Qed.

End HealthServiceFacts.

(** ** The Vault lease wait *)

Module VaultFacts.

Import Vault.
Local Open Scope Q_scope.

Lemma between_bounds lo hi u :
  lo <= hi -> 0 <= u <= 1 -> lo <= between lo hi u <= hi.
Proof.
  intros Hlh [H0 H1]. unfold between.
  assert (Ha : 0 <= u * (hi - lo)) by (apply Qmult_le_0_compat; lra).
  assert (Hb : 0 <= (1 - u) * (hi - lo)) by (apply Qmult_le_0_compat; lra).
  assert (Hc : (1 - u) * (hi - lo) == (hi - lo) - u * (hi - lo)) by ring.
  rewrite Hc in Hb. split; lra.
Qed.

Lemma leaseCheckWait_renewable u s :
  Renewable s = true ->
  leaseCheckWait u s
  = between (inject_Z (LeaseDuration s) / 6) (inject_Z (LeaseDuration s) / 3) u.
Proof. unfold leaseCheckWait. now intros ->. Qed.

Lemma leaseCheckWait_rotating u s period ttl :
  Renewable s = false ->
  number s "rotation_period" = Some period -> number s "ttl" = Some ttl ->
  leaseCheckWait u s = inject_Z (Z.min (ttl + 1) period).
Proof. unfold leaseCheckWait. now intros -> -> ->. Qed.

Lemma leaseCheckWait_expiring u s :
  Renewable s = false ->
  number s "rotation_period" = None \/ number s "ttl" = None ->
  leaseCheckWait u s
  = between (0.85 * expiringBase s) (0.95 * expiringBase s) u.
Proof.
  unfold leaseCheckWait. intros -> [-> | ->]; [reflexivity|].
  now destruct (number s "rotation_period").
Qed.

Lemma expiring_bounds base u :
  0 <= base -> 0 <= u <= 1 ->
  0.85 * base <= between (0.85 * base) (0.95 * base) u <= 0.95 * base.
Proof. intros Hb Hu. apply between_bounds; [lra | exact Hu]. Qed.

Lemma renewable_100 u :
  0 <= u <= 1 ->
  16 <= leaseCheckWait u renewable /\ leaseCheckWait u renewable < 34.
Proof.
  intros Hu. rewrite leaseCheckWait_renewable by reflexivity.
  change (inject_Z (LeaseDuration renewable) / 6) with (100 # 6).
  change (inject_Z (LeaseDuration renewable) / 3) with (100 # 3).
  assert (H : 100 # 6 <= 100 # 3) by (unfold Qle; simpl; lia).
  pose proof (between_bounds _ _ u H Hu).
  assert (16 <= 100 # 6) by (unfold Qle; simpl; lia).
  assert (100 # 3 < 34) by (unfold Qlt; simpl; lia).
  split; lra.
Qed.

Lemma nonRenewable_100 u :
  0 <= u <= 1 -> 85 <= leaseCheckWait u nonRenewable <= 95.
Proof.
  intros Hu. rewrite leaseCheckWait_expiring by (auto || left; reflexivity).
  change (expiringBase nonRenewable) with 100.
  pose proof (expiring_bounds 100 u ltac:(lra) Hu). lra.
Qed.

(** C3: the bounds the test pins.  Whatever the draw, the wait of the
    renewable secret with lease duration 100 is at least 16 s and below
    34 s, the wait of the plain secret with lease duration 100 is within
    85 s and 95 s, and the waits of the secrets with rotation_period 60,
    ttl 30 and with rotation_period 30, ttl 5 are 31 s and 6 s. *)
Theorem leaseCheckWait_pinned_bounds (u : Q) :
  0 <= u <= 1 ->
  (16 <= leaseCheckWait u renewable /\ leaseCheckWait u renewable < 34)
  /\ (85 <= leaseCheckWait u nonRenewable <= 95)
  /\ leaseCheckWait u (rotated 60 30) = 31
  /\ leaseCheckWait u (rotated 30 5) = 6.
Proof.
  intros Hu. split; [|split; [|split]].
  - now apply renewable_100.
  - now apply nonRenewable_100.
  - now rewrite (leaseCheckWait_rotating u (rotated 60 30) 60 30).
  - now rewrite (leaseCheckWait_rotating u (rotated 30 5) 30 5).
Qed.

Lemma leaseCheckWait_pinned_bounds_witness :
  (0 <= 1 # 2 <= 1)
  /\ (16 <= leaseCheckWait (1 # 2) renewable
      /\ leaseCheckWait (1 # 2) renewable < 34)
  /\ (85 <= leaseCheckWait (1 # 2) nonRenewable <= 95)
  /\ leaseCheckWait (1 # 2) (rotated 60 30) = 31
  /\ leaseCheckWait (1 # 2) (rotated 30 5) = 6.
Proof.
  assert (H : 0 <= 1 # 2 <= 1) by (split; unfold Qle; simpl; lia).
  split; [exact H | exact (leaseCheckWait_pinned_bounds (1 # 2) H)].
Defined.

Lemma secretID_base u leaseDur ttl :
  leaseCheckWait u (secretID leaseDur ttl)
  = between (0.85 * expiringBase (secretID leaseDur ttl))
            (0.95 * expiringBase (secretID leaseDur ttl)) u.
Proof.
  apply leaseCheckWait_expiring; [reflexivity|].
  left. now destruct ttl.
Qed.

Lemma accepts_base x u :
  (0 <= x)%Z -> 0 <= u <= 1 ->
  acceptsSecretID x
    (between (0.85 * inject_Z (x + 1)) (0.95 * inject_Z (x + 1)) u) = true.
Proof.
  intros Hx Hu.
  assert (Hpos : 0 <= inject_Z (x + 1)).
  { change 0 with (inject_Z 0). rewrite <- Zle_Qle. lia. }
  pose proof (expiring_bounds (inject_Z (x + 1)) u Hpos Hu) as [H1 H2].
  unfold acceptsSecretID, Qltb.
  rewrite negb_true_iff, orb_false_iff, !negb_false_iff.
  split; now apply Qle_bool_iff.
Qed.

(** The test accepts every wait the model gives its secrets, whatever the
    draw: each assertion of TestVaultRenewDuration, in its order. *)
Lemma test_accepts_model u expiration :
  0 <= u <= 1 ->
  acceptsRenewable (leaseCheckWait u renewable) = true
  /\ acceptsNonRenewable (leaseCheckWait u nonRenewable) = true
  /\ leaseCheckWait u (rotated 60 30) = 31
  /\ leaseCheckWait u (rotated 30 5) = 6
  /\ acceptsNonRenewable (leaseCheckWait u (nonRenewableCert expiration)) = true
  /\ acceptsSecretID 60 (leaseCheckWait u (secretID 100 (Some 60%Z))) = true
  /\ acceptsSecretID 1000 (leaseCheckWait u (secretID 1000 (Some 0%Z))) = true
  /\ acceptsSecretID 1000 (leaseCheckWait u (secretID 1000 None)) = true.
Proof.
  intros Hu.
  destruct (renewable_100 u Hu) as (H1 & H2).
  destruct (nonRenewable_100 u Hu) as (H3 & H4).
  unfold acceptsRenewable, acceptsNonRenewable, Qltb.
  split; [|split; [|split; [|split; [|split; [|split; [|split]]]]]].
  - rewrite negb_true_iff, orb_false_iff, !negb_false_iff.
    split; [now apply Qle_bool_iff|].
    apply not_true_is_false. rewrite Qle_bool_iff. lra.
  - rewrite negb_true_iff, orb_false_iff, !negb_false_iff.
    split; now apply Qle_bool_iff.
  - now rewrite (leaseCheckWait_rotating u (rotated 60 30) 60 30).
  - now rewrite (leaseCheckWait_rotating u (rotated 30 5) 30 5).
  - rewrite leaseCheckWait_expiring by (auto || left; reflexivity).
    change (expiringBase (nonRenewableCert expiration)) with 100.
    pose proof (expiring_bounds 100 u ltac:(lra) Hu) as [H5 H6].
    rewrite negb_true_iff, orb_false_iff, !negb_false_iff.
    split; apply Qle_bool_iff; lra.
  - rewrite secretID_base. now apply (accepts_base 60).
  - rewrite secretID_base. now apply (accepts_base 1000).
  - rewrite secretID_base. now apply (accepts_base 1000).
Qed.

(** C4, as stated, fails: for secret_id_ttl = 60 the wait at the draw 1/2
    is 54.9 s and not 61 s, and the test refuses 61 s. *)
Lemma secret_id_ttl_counterexample :
  number (secretID 100 (Some 60%Z)) "secret_id_ttl" = Some 60%Z
  /\ leaseCheckWait (1 # 2) (secretID 100 (Some 60%Z)) == 549 # 10
  /\ ~ leaseCheckWait (1 # 2) (secretID 100 (Some 60%Z)) == 61
  /\ acceptsSecretID 60 61 = false.
Proof.
  split; [reflexivity|]. split; [reflexivity|]. split; [|reflexivity].
  intros H. vm_compute in H. discriminate H.
Qed.

(** C4 (as amended): for a secret that is not renewable and not rotating,
    a secret_id_ttl t > 0 makes t + 1 seconds the base of the wait, which
    lies within 85% and 95% of t + 1 and so below t + 1; when
    secret_id_ttl is 0, or is missing from the Data of a secret_id, the
    lease duration stands for it and the wait lies within 85% and 95% of
    the lease duration plus a second; without secret_id and secret_id_ttl
    the base is the lease duration itself.  In each case the wait is what
    the test accepts for that base. *)
Theorem leaseCheckWait_secret_id (u : Q) (s : Secret) :
  Renewable s = false ->
  number s "rotation_period" = None \/ number s "ttl" = None ->
  0 <= u <= 1 ->
  (forall t, number s "secret_id_ttl" = Some t -> (0 < t)%Z ->
     leaseCheckWait u s
     = between (0.85 * inject_Z (t + 1)) (0.95 * inject_Z (t + 1)) u
     /\ 0.85 * inject_Z (t + 1) <= leaseCheckWait u s <= 0.95 * inject_Z (t + 1)
     /\ leaseCheckWait u s < inject_Z (t + 1)
     /\ acceptsSecretID t (leaseCheckWait u s) = true)
  /\ (number s "secret_id_ttl" = Some 0%Z
      \/ (carries s "secret_id" = true /\ carries s "secret_id_ttl" = false) ->
      leaseCheckWait u s
      = between (0.85 * inject_Z (LeaseDuration s + 1))
                (0.95 * inject_Z (LeaseDuration s + 1)) u
      /\ ((0 <= LeaseDuration s)%Z ->
          acceptsSecretID (LeaseDuration s) (leaseCheckWait u s) = true))
  /\ (carries s "secret_id" = false -> carries s "secret_id_ttl" = false ->
      leaseCheckWait u s
      = between (0.85 * inject_Z (LeaseDuration s))
                (0.95 * inject_Z (LeaseDuration s)) u).
Proof.
  intros Hr Hrot Hu. rewrite (leaseCheckWait_expiring u s Hr Hrot).
  unfold expiringBase, carries, number.
  split; [|split].
  - intros t Ht Hpos.
    destruct (Data s !! "secret_id_ttl") as [[n|]|]; try discriminate Ht.
    injection Ht as ->. rewrite orb_true_r.
    apply Z.ltb_lt in Hpos as Hb. rewrite Hb.
    assert (Hq : 0 < inject_Z (t + 1)).
    { change 0 with (inject_Z 0). rewrite <- Zlt_Qlt. lia. }
    pose proof (expiring_bounds (inject_Z (t + 1)) u ltac:(lra) Hu).
    split; [reflexivity|]. split; [lra|]. split; [lra|].
    apply accepts_base; [lia | exact Hu].
  - intros H.
    assert (E : (if (match Data s !! "secret_id" with
                     | Some _ => true | None => false end
                     || match Data s !! "secret_id_ttl" with
                        | Some _ => true | None => false end)
                 then match match Data s !! "secret_id_ttl" with
                            | Some (Number n) => Some n | _ => None end with
                      | Some t => if (0 <? t)%Z then inject_Z (t + 1)
                                  else inject_Z (LeaseDuration s + 1)
                      | None => inject_Z (LeaseDuration s + 1)
                      end
                 else inject_Z (LeaseDuration s))
                = inject_Z (LeaseDuration s + 1)).
    { destruct H as [H | [H1 H2]].
      - destruct (Data s !! "secret_id_ttl") as [[n|]|]; try discriminate H.
        injection H as ->. now rewrite orb_true_r.
      - destruct (Data s !! "secret_id"); [|discriminate H1].
        now destruct (Data s !! "secret_id_ttl"). }
    rewrite E. split; [reflexivity|].
    intros Hl. now apply accepts_base.
  - intros H1 H2.
    destruct (Data s !! "secret_id"); [discriminate H1|].
    now destruct (Data s !! "secret_id_ttl").
Qed.

Lemma leaseCheckWait_secret_id_witness :
  Renewable (secretID 100 (Some 60%Z)) = false
  /\ (0 <= 1 # 2 <= 1)
  /\ 0.85 * 61 <= leaseCheckWait (1 # 2) (secretID 100 (Some 60%Z)) <= 0.95 * 61
  /\ leaseCheckWait (1 # 2) (secretID 1000 (Some 0%Z))
     = between (0.85 * 1001) (0.95 * 1001) (1 # 2)
  /\ leaseCheckWait (1 # 2) (secretID 1000 None)
     = between (0.85 * 1001) (0.95 * 1001) (1 # 2)
  /\ leaseCheckWait (1 # 2) nonRenewable
     = between (0.85 * 100) (0.95 * 100) (1 # 2).
Proof.
  assert (H : 0 <= 1 # 2 <= 1) by (split; unfold Qle; simpl; lia).
  split; [reflexivity|]. split; [exact H|].
  split; [|split; [|split]].
  - exact (proj1 (proj2 (proj1 (leaseCheckWait_secret_id (1 # 2)
             (secretID 100 (Some 60%Z)) eq_refl (or_introl eq_refl) H)
             60%Z eq_refl eq_refl))).
  - exact (proj1 (proj1 (proj2 (leaseCheckWait_secret_id (1 # 2)
             (secretID 1000 (Some 0%Z)) eq_refl (or_introl eq_refl) H))
             (or_introl eq_refl))).
  - exact (proj1 (proj1 (proj2 (leaseCheckWait_secret_id (1 # 2)
             (secretID 1000 None) eq_refl (or_introl eq_refl) H))
             (or_intror (conj eq_refl eq_refl)))).
  - exact (proj2 (proj2 (leaseCheckWait_secret_id (1 # 2) nonRenewable
             eq_refl (or_introl eq_refl) H)) eq_refl eq_refl).
Defined.

End VaultFacts.

(** ** The Vault list query *)

Module VaultListFacts.

Import GoString VaultList.

Lemma TrimRight_snoc p s c :
  p c = true -> TrimRight p (s +:+ String c "") = TrimRight p s.
Proof.
  intros Hc. induction s as [|a s IH]; simpl.
  - now rewrite Hc.
  - now rewrite IH.
Qed.

Lemma TrimFunc_cons p c s :
  p c = true -> TrimFunc p (String c s) = TrimFunc p s.
Proof. intros Hc. unfold TrimFunc. simpl. now rewrite Hc. Qed.

Lemma TrimFunc_snoc p s c :
  p c = true -> TrimFunc p (s +:+ String c "") = TrimFunc p s.
Proof.
  intros Hc. unfold TrimFunc. induction s as [|a s IH]; simpl.
  - now rewrite Hc.
  - destruct (p a) eqn:Ha; [exact IH|].
    change (String a (s +:+ String c "")) with (String a s +:+ String c "").
    now apply TrimRight_snoc.
Qed.

(** C7: a slash in front of a path or behind it does not change the
    query, so "/a/b/" and "a/b" give queries of one identity,
    vault.list(a/b); the empty path gives an error and no query. *)
Theorem NewVaultListQuery_normalizes :
  (forall s, NewVaultListQuery ("/" +:+ s) = NewVaultListQuery s)
  /\ (forall s, NewVaultListQuery (s +:+ "/") = NewVaultListQuery s)
  /\ identity "/a/b/" = Some "vault.list(a/b)"
  /\ identity "a/b" = Some "vault.list(a/b)"
  /\ NewVaultListQuery "/a/b/" = NewVaultListQuery "a/b"
  /\ NewVaultListQuery "" = inl (ErrInvalidFormat "").
Proof.
  split; [|split].
  - intros s. unfold NewVaultListQuery.
    change ("/" +:+ s) with (String "/" s).
    now rewrite TrimFunc_cons.
  - intros s. unfold NewVaultListQuery. now rewrite TrimFunc_snoc.
  - repeat split.
Qed.

(** The cases of TestNewVaultListQuery. *)
Example TestNewVaultListQuery :
  NewVaultListQuery "" = inl (ErrInvalidFormat "")
  /\ NewVaultListQuery "path" = inr {| stopCh := Chan.make 1; path := "path" |}
  /\ NewVaultListQuery "/leading/slash"
     = inr {| stopCh := Chan.make 1; path := "leading/slash" |}
  /\ NewVaultListQuery "trailing/slash/"
     = inr {| stopCh := Chan.make 1; path := "trailing/slash" |}.
Proof. repeat split. Qed.

End VaultListFacts.

(** ** The atomic file writer *)

Module RendererFacts.

Import Renderer.

Lemma Stat_empty p : p <> [] -> Stat (DirNode ∅) p = inl ENOENT.
Proof. destruct p; [congruence|]. intros _. simpl. now rewrite lookup_empty. Qed.

(** Below a path that does not exist nothing exists. *)
Lemma Stat_ENOENT_app p : forall fs k,
  Stat fs p = inl ENOENT -> Stat fs (p ++ k)%list = inl ENOENT.
Proof.
  induction p as [|c rest IH]; intros fs k H; simpl in *.
  - destruct fs; discriminate H.
  - destruct fs as [f | entries]; [discriminate H|].
    destruct (entries !! c) as [child|]; [now apply IH | reflexivity].
Qed.

(** MkdirAll succeeds on a path that does not exist, and afterwards every
    prefix of the path is a directory and any other path is as before. *)
Lemma MkdirAll_spec p : forall fs,
  Stat fs p = inl ENOENT ->
  exists fs',
    MkdirAll fs p = inr fs'
    /\ (forall q, q `prefix_of` p -> Stat fs' q = inr Directory)
    /\ (forall q, ~ q `prefix_of` p -> Stat fs' q = Stat fs q).
Proof.
  induction p as [|c rest IH]; intros fs H.
  - destruct fs; discriminate H.
  - destruct fs as [f | entries]; [discriminate H|]. simpl in H. simpl.
    assert (Hc : exists child,
      MkdirAll (default (DirNode ∅) (entries !! c)) rest = inr child
      /\ (forall q, q `prefix_of` rest -> Stat child q = inr Directory)
      /\ (forall q, ~ q `prefix_of` rest ->
          Stat child q = match entries !! c with
                         | Some old => Stat old q
                         | None => inl ENOENT
                         end)).
    { destruct (entries !! c) as [old|] eqn:He; simpl.
      - apply IH, H.
      - destruct rest as [|c' rest'].
        + exists (DirNode ∅). split; [reflexivity|]. split.
          * intros q Hq. apply prefix_nil_inv in Hq as ->. reflexivity.
          * intros q Hq. apply Stat_empty. intros ->. apply Hq. reflexivity.
        + destruct (IH (DirNode ∅)) as (child & H1 & H2 & H3).
          { apply Stat_empty. discriminate. }
          exists child. split; [exact H1|]. split; [exact H2|].
          intros q Hq. rewrite (H3 q Hq). apply Stat_empty.
          intros ->. apply Hq, prefix_nil. }
    destruct Hc as (child & -> & Hd & Ho).
    eexists. split; [reflexivity|]. split.
    + intros [|c' q] Hq; [reflexivity|]. simpl.
      apply prefix_cons_inv_1 in Hq as Hc. subst c'.
      apply prefix_cons_inv_2 in Hq.
      rewrite lookup_insert_eq. now apply Hd.
    + intros [|c' q] Hq; [elim Hq; apply prefix_nil|]. simpl.
      destruct (decide (c' = c)) as [-> | Hne].
      * rewrite lookup_insert_eq. apply Ho. intros Hp. apply Hq.
        now apply prefix_cons.
      * now rewrite lookup_insert_ne by congruence.
Qed.

(** The write into a directory that is there, of a name that is not:
    afterwards the destination is the file written, nothing is below it,
    and any other path is as before. *)
Lemma replace_spec data perms parent : forall fs name,
  Stat fs parent = inr Directory ->
  Stat fs (parent ++ [name])%list = inl ENOENT ->
  exists fs',
    replace fs (parent ++ [name])%list data perms = inr fs'
    /\ Stat fs' (parent ++ [name])%list
       = inr (Regular {| contents := data; mode := perms |})
    /\ (forall q, (parent ++ [name])%list `prefix_of` q ->
        q <> (parent ++ [name])%list -> Stat fs' q = inl ENOTDIR)
    /\ (forall q, ~ (parent ++ [name])%list `prefix_of` q ->
        Stat fs' q = Stat fs q).
Proof.
  induction parent as [|c rest IH]; intros fs name Hd Hn.
  - destruct fs as [f | entries]; [discriminate Hd|]. simpl in *.
    destruct (entries !! name) as [child|] eqn:He.
    { destruct child; discriminate Hn. }
    eexists. split; [reflexivity|]. split; [|split].
    + simpl. now rewrite lookup_insert_eq.
    + intros [|c' q] Hq Hne; [now apply prefix_nil_inv in Hq|].
      apply prefix_cons_inv_1 in Hq as Hc. subst c'. simpl.
      rewrite lookup_insert_eq. destruct q; [congruence | reflexivity].
    + intros [|c' q] Hq; [reflexivity|]. simpl.
      rewrite lookup_insert_ne; [reflexivity|].
      intros <-. apply Hq. apply prefix_cons, prefix_nil.
  - destruct fs as [f | entries]; [discriminate Hd|]. simpl in *.
    destruct (entries !! c) as [child|] eqn:He; [|discriminate Hd].
    destruct (IH child name Hd Hn) as (child' & Hr & Hf & Hb & Ho).
    rewrite Hr. eexists. split; [reflexivity|]. split; [|split].
    + simpl. now rewrite lookup_insert_eq.
    + intros [|c' q] Hq Hne; [now apply prefix_nil_inv in Hq|].
      apply prefix_cons_inv_1 in Hq as Hc. subst c'.
      apply prefix_cons_inv_2 in Hq. simpl. rewrite lookup_insert_eq.
      apply Hb; [exact Hq | congruence].
    + intros [|c' q] Hq; [reflexivity|]. simpl.
      destruct (decide (c' = c)) as [-> | Hne].
      * rewrite lookup_insert_eq, He. apply Ho. intros Hp. apply Hq.
        now apply prefix_cons.
      * now rewrite lookup_insert_ne by congruence.
Qed.

(** The write below a regular file fails, whatever is to be written. *)
Lemma replace_ENOTDIR data perms parent : forall fs k,
  Stat fs parent = inl ENOTDIR ->
  replace fs (parent ++ k)%list data perms = inl (PathError ENOTDIR).
Proof.
  induction parent as [|c rest IH]; intros fs k H.
  - destruct fs; discriminate H.
  - destruct fs as [f | entries]; [reflexivity|]. simpl in *.
    destruct (entries !! c) as [child|]; [|discriminate H].
    now rewrite (IH child k H).
Qed.

Lemma prefix_parent (q parent : Path) (name : string) :
  q `prefix_of` parent ->
  q `prefix_of` (parent ++ [name])%list
  /\ ~ (parent ++ [name])%list `prefix_of` q.
Proof.
  intros Hq. split; [now apply prefix_app_r|].
  intros Hp. apply prefix_length in Hq, Hp.
  rewrite length_app in Hp. simpl in Hp. lia.
Qed.

(** C8: when os.Stat finds no parent directory of the destination,
    atomicWrite without parent creation returns errNoParentDir and leaves
    the file system as it was; with parent creation it returns no error
    and afterwards the destination is a regular file with the bytes
    given, the parent directory and every directory above it is a
    directory, and no other path has changed, except that the paths below
    the destination now have a regular file above them. *)
Theorem atomicWrite_missing_parent (fs : node) (path : Path) (data : string)
    (perms : Z) :
  Stat fs (Dir path) = inl ENOENT ->
  atomicWrite fs path data perms false = (fs, Some errNoParentDir)
  /\ exists fs',
       atomicWrite fs path data perms true = (fs', None)
       /\ (exists f, Stat fs' path = inr (Regular f) /\ contents f = data)
       /\ (forall d, d `prefix_of` Dir path -> Stat fs' d = inr Directory)
       /\ (forall q, path `prefix_of` q -> q <> path ->
           Stat fs' q = inl ENOTDIR)
       /\ (forall q, ~ q `prefix_of` path -> ~ path `prefix_of` q ->
           Stat fs' q = Stat fs q).
Proof.
  intros Hp.
  assert (Hne : path <> []).
  { intros ->. destruct fs; discriminate Hp. }
  destruct (exists_last Hne) as (parent & name & ->).
  unfold atomicWrite, Dir in *. rewrite removelast_last in *.
  rewrite Hp. cbn [IsNotExist].
  split; [reflexivity|].
  destruct (MkdirAll_spec parent fs Hp) as (fs1 & -> & Hdirs & Hrest).
  destruct (replace_spec data perms parent fs1 name) as (fs2 & -> & Hf & Hb & Ho).
  { apply Hdirs. reflexivity. }
  { rewrite Hrest.
    - now apply Stat_ENOENT_app.
    - intros H. apply prefix_length in H. rewrite length_app in H.
      simpl in H. lia. }
  exists fs2. split; [reflexivity|].
  split; [eexists; split; [exact Hf | reflexivity]|]. split; [|split].
  - intros d Hd. destruct (prefix_parent d parent name Hd) as [_ Hn].
    rewrite (Ho d Hn). now apply Hdirs.
  - exact Hb.
  - intros q Hq Hn. rewrite (Ho q Hn). apply Hrest.
    intros H. apply Hq. now apply prefix_app_r.
Qed.

(** When the walk to the parent directory has to pass a regular file,
    os.Stat does not report a missing parent, nothing is created and the
    write fails with the error of the file system, with or without parent
    creation. *)
Lemma atomicWrite_below_file (fs : node) (path : Path) (data : string)
    (perms : Z) (createParents : bool) :
  Stat fs (Dir path) = inl ENOTDIR ->
  atomicWrite fs path data perms createParents
  = (fs, Some (PathError ENOTDIR)).
Proof.
  intros Hp.
  assert (Hne : path <> []).
  { intros ->. destruct fs; discriminate Hp. }
  destruct (exists_last Hne) as (parent & name & ->).
  unfold atomicWrite, Dir in *. rewrite removelast_last in *.
  rewrite Hp. cbn [IsNotExist].
  now rewrite (replace_ENOTDIR data perms parent fs _ Hp).
Qed.

Lemma atomicWrite_missing_parent_witness :
  Stat removedOutDir (Dir (outFile "create")) = inl ENOENT
  /\ atomicWrite removedOutDir (outFile "nope-no-create") "" 420 false
     = (removedOutDir, Some errNoParentDir)
  /\ atomicWrite removedOutDir (outFile "create") "" 420 true = (created, None)
  /\ (exists f, Stat created (outFile "create") = inr (Regular f)
                /\ contents f = "")
  /\ Forall (fun d => Stat created d = inr Directory)
       [ []; ["tmp"]; ["tmp"; "out"]; ["tmp"; "out"; "nope"];
         ["tmp"; "out"; "nope"; "not"]; ["tmp"; "out"; "nope"; "not"; "it"] ]
  /\ Stat created ["tmp"; "other"] = Stat removedOutDir ["tmp"; "other"].
Proof.
  pose proof (atomicWrite_missing_parent removedOutDir (outFile "nope-no-create")
                "" 420 eq_refl) as [H1 _].
  pose proof (atomicWrite_missing_parent removedOutDir (outFile "create")
                "" 420 eq_refl) as (_ & fs' & H2 & (f & H3 & Hf) & H4 & _ & H5).
  assert (E : fs' = created).
  { change (atomicWrite removedOutDir (outFile "create") "" 420 true)
      with (created, @None error) in H2. now injection H2. }
  subst fs'.
  split; [reflexivity|]. split; [exact H1|]. split; [exact H2|].
  split; [exists f; split; [exact H3 | exact Hf]|]. split.
  - repeat (apply Forall_cons_2 || apply Forall_nil_2);
      apply H4; eexists; reflexivity.
  - apply H5; intros [k Hk]; discriminate Hk.
Defined.

(** TestAtomicWrite/retains_permissions: a file of mode 0600 keeps it. *)
Example retains_permissions :
  let fs := DirNode {[ "tmp" :=
              DirNode {[ "f" := FileNode {| contents := ""; mode := 384 |} ]} ]} in
  atomicWrite fs ["tmp"; "f"] "" 0 true = (fs, None)
  /\ Stat fs ["tmp"; "f"] = inr (Regular {| contents := ""; mode := 384 |}).
Proof. split; reflexivity. Qed.

End RendererFacts.

(** ** The resolver *)

Module ResolverFacts.

Import Resolver.

(** A pass reads the values of the store and nothing else of it or of the
    watcher, and it leaves the values as they are. *)
Lemma execute_values tmpl b : forall w w' st st' miss use,
  values st = values st' ->
  output (execute tmpl b w st miss use) = output (execute tmpl b w' st' miss use)
  /\ missing (execute tmpl b w st miss use)
     = missing (execute tmpl b w' st' miss use)
  /\ used (execute tmpl b w st miss use) = used (execute tmpl b w' st' miss use)
  /\ values (pass_store (execute tmpl b w st miss use)) = values st.
Proof.
  induction b as [out | d k IH]; intros w w' st st' miss use Hv; simpl.
  - auto.
  - rewrite <- Hv. destruct (values st !! dep_ID d) as [v|].
    + edestruct (IH v) as (H1 & H2 & H3 & H4); [|repeat split; eauto].
      reflexivity.
    + edestruct (IH zeroValue) as (H1 & H2 & H3 & H4); [|repeat split; eauto].
      reflexivity.
Qed.

Lemma Run_store_values t w st : values (run_store (Run t w st)) = values st.
Proof.
  unfold Run.
  pose proof (execute_values (tmpl_ID t) (body t) (Mark (tmpl_ID t) w)
                (Mark (tmpl_ID t) w) st st [] [] eq_refl) as (_ & _ & _ & H).
  destruct (negb _); [exact H|]. destruct (sameBytes _ _); exact H.
Qed.

Lemma Run_tmpl_same t w st :
  tmpl_ID (run_tmpl (Run t w st)) = tmpl_ID t
  /\ body (run_tmpl (Run t w st)) = body t.
Proof.
  unfold Run. destruct (negb _); [auto|]. destruct (sameBytes _ _); auto.
Qed.

Lemma sameBytes_spec last out : sameBytes last out = true <-> last = Some out.
Proof.
  destruct last as [b|]; simpl; [|split; discriminate].
  rewrite String.eqb_eq. split; congruence.
Qed.

Lemma isNil_spec {A} (l : list A) : isNil l = true <-> l = [].
Proof. destruct l; simpl; split; congruence. Qed.

(** The pass of the second of two consecutive runs gives what the pass of
    the first gave. *)
Lemma second_pass t w st :
  output (pass (run_tmpl (Run t w st)) (run_watcher (Run t w st))
               (run_store (Run t w st)))
  = output (pass t w st)
  /\ missing (pass (run_tmpl (Run t w st)) (run_watcher (Run t w st))
                   (run_store (Run t w st)))
     = missing (pass t w st).
Proof.
  unfold pass.
  destruct (Run_tmpl_same t w st) as [-> ->].
  edestruct (execute_values (tmpl_ID t) (body t)) as (H1 & H2 & _);
    [apply (Run_store_values t w st)|].
  split; [exact H1 | exact H2].
Qed.

Lemma Run_event t w st :
  event (Run t w st)
  = if negb (isNil (missing (pass t w st))) then
      {| Complete := false; Contents := ""; NoChange := false |}
    else
      {| Complete := true; Contents := output (pass t w st);
         NoChange := sameBytes (lastEmitted t) (output (pass t w st)) |}.
Proof.
  unfold Run, pass. destruct (negb _); [reflexivity|].
  destruct (sameBytes _ _); reflexivity.
Qed.

Lemma Run_lastEmitted t w st :
  lastEmitted (run_tmpl (Run t w st))
  = if negb (isNil (missing (pass t w st))) then lastEmitted t
    else if sameBytes (lastEmitted t) (output (pass t w st)) then lastEmitted t
    else Some (output (pass t w st)).
Proof.
  unfold Run, pass. destruct (negb _); [reflexivity|].
  destruct (sameBytes _ _); reflexivity.
Qed.

(** C9: Complete holds exactly when the pass has no missing value, and
    NoChange exactly when Complete holds and the bytes of the pass are the
    bytes of the previous complete pass; a complete event carries the
    bytes of its pass.  Of two consecutive runs with nothing saved in
    between, the second renders the bytes of the first and the Contents of
    the two events are identical; when the first is complete, the second
    is complete and a NoChange, and the bytes stay the last emitted
    ones; a run that is not complete leaves the last emitted bytes as
    they were. *)
Theorem Run_events (t : Template) (w : Watcher) (st : Store) :
  let r1 := fst (RunTwice t w st) in
  let r2 := snd (RunTwice t w st) in
  let p := pass t w st in
  (Complete (event r1) = true <-> missing p = [])
  /\ (NoChange (event r1) = true <->
      Complete (event r1) = true /\ lastEmitted t = Some (output p))
  /\ (Complete (event r1) = true -> Contents (event r1) = output p)
  /\ output (pass (run_tmpl r1) (run_watcher r1) (run_store r1)) = output p
  /\ Contents (event r2) = Contents (event r1)
  /\ (Complete (event r1) = true ->
      Complete (event r2) = true /\ NoChange (event r2) = true
      /\ Contents (event r2) = output p
      /\ lastEmitted (run_tmpl r1) = Some (output p)
      /\ lastEmitted (run_tmpl r2) = Some (output p))
  /\ (Complete (event r1) = false ->
      Complete (event r2) = false /\ NoChange (event r2) = false
      /\ lastEmitted (run_tmpl r1) = lastEmitted t).
Proof.
  intros r1 r2 p.
  assert (Hr2 : r2 = Run (run_tmpl (Run t w st)) (run_watcher (Run t w st))
                         (run_store (Run t w st))) by reflexivity.
  assert (Hr1 : r1 = Run t w st) by reflexivity.
  pose proof (second_pass t w st) as [Ho Hm].
  pose proof (Run_event t w st) as He1.
  pose proof (Run_lastEmitted t w st) as Hl1.
  pose proof (Run_event (run_tmpl (Run t w st)) (run_watcher (Run t w st))
                (run_store (Run t w st))) as He2.
  pose proof (Run_lastEmitted (run_tmpl (Run t w st)) (run_watcher (Run t w st))
                (run_store (Run t w st))) as Hl2.
  rewrite Ho, Hm in He2, Hl2. rewrite Hl1 in He2, Hl2.
  rewrite Hr1, Hr2, Ho, He1, He2, Hl1, Hl2. fold p. clear.
  rewrite <- isNil_spec, <- sameBytes_spec.
  destruct (isNil (missing p)); simpl.
  - destruct (sameBytes (lastEmitted t) (output p)) eqn:Hs; simpl.
    + rewrite Hs. simpl. apply sameBytes_spec in Hs. intuition congruence.
    + rewrite String.eqb_refl. simpl. intuition congruence.
  - intuition congruence.
Qed.

Lemma Run_events_witness :
  Complete (event (fst (RunTwice listing NewWatcher published))) = true
  /\ Contents (event (fst (RunTwice listing NewWatcher published))) = "services: web"
  /\ Contents (event (snd (RunTwice listing NewWatcher published)))
     = Contents (event (fst (RunTwice listing NewWatcher published)))
  /\ Complete (event (snd (RunTwice listing NewWatcher published))) = true
  /\ NoChange (event (snd (RunTwice listing NewWatcher published))) = true
  /\ Contents (event (snd (RunTwice listing NewWatcher published))) = "services: web".
Proof.
  pose proof (Run_events listing NewWatcher published) as H. cbv zeta in H.
  destruct H as (_ & _ & H1 & _ & H2 & H3 & _).
  split; [reflexivity|]. split; [exact (H1 eq_refl)|].
  split; [exact H2|].
  destruct (H3 eq_refl) as (Ha & Hb & Hc & _).
  repeat split; assumption.
Defined.

End ResolverFacts.

(** ** More on the health service query *)

Module HealthServiceMore.

Import Chan HealthService HealthServiceLife GoString GoStringFacts HealthServiceFacts.

(** ** Facts on the sorted filters *)

Lemma le_antisym s t : le s t -> le t s -> s = t.
Proof.
  rewrite <- !leb_le. apply String.leb_antisym.
Qed.

Lemma ltb_false_le s t : String.ltb s t = false -> le t s.
Proof.
  intros H. destruct (le_total t s) as [Hle | Hle]; [exact Hle|].
  apply le_cases in Hle as [Hlt | ->]; [|apply le_refl].
  apply ltb_lt in Hlt. congruence.
Qed.

Lemma insertString_perm x l : Permutation (insertString x l) (x :: l).
Proof.
  induction l as [|y rest IH]; simpl; [reflexivity|].
  destruct (String.ltb y x); [|reflexivity].
  rewrite IH. apply perm_swap.
Qed.

Lemma insertString_sorted x l :
  StronglySorted le l -> StronglySorted le (insertString x l).
Proof.
  induction 1 as [|y rest Hs IH Hall]; simpl.
  - repeat constructor.
  - destruct (String.ltb y x) eqn:Hyx.
    + constructor; [exact IH|].
      eapply Permutation_Forall; [symmetry; apply insertString_perm|].
      constructor; [|exact Hall].
      apply le_cases. left. now apply ltb_lt.
    + apply ltb_false_le in Hyx.
      constructor; [now constructor|].
      constructor; [exact Hyx|].
      eapply Forall_impl; [exact Hall|]. intros z Hz. eauto using le_trans.
Qed.

Lemma SortStrings_perm l : Permutation (SortStrings l) l.
Proof.
  induction l as [|x l IH]; simpl; [reflexivity|].
  now rewrite insertString_perm, IH.
Qed.

Lemma SortStrings_sorted l : StronglySorted le (SortStrings l).
Proof.
  induction l as [|x l IH]; simpl; [constructor|].
  now apply insertString_sorted.
Qed.

(** Two sorted arrangements of the same elements are the same list when
    no two different elements are below each other. *)
Lemma sorted_perm_unique {A} (R : A -> A -> Prop) (l1 : list A) : forall l2,
  StronglySorted R l1 -> StronglySorted R l2 -> Permutation l1 l2 ->
  (forall x y, In x l1 -> In y l1 -> R x y -> R y x -> x = y) ->
  l1 = l2.
Proof.
  induction l1 as [|x l1 IH]; intros l2 H1 H2 Hp Ha.
  - apply Permutation_nil in Hp. now subst.
  - destruct l2 as [|y l2].
    { symmetry in Hp. now apply Permutation_nil in Hp. }
    inversion H1 as [|? ? H1' Hx]; subst. inversion H2 as [|? ? H2' Hy]; subst.
    assert (Hxy : x = y).
    { assert (Hin1 : In x (y :: l2)).
      { eapply Permutation_in; [exact Hp | now left]. }
      assert (Hin2 : In y (x :: l1)).
      { eapply Permutation_in; [symmetry; exact Hp | now left]. }
      destruct Hin1 as [-> | Hin1]; [reflexivity|].
      destruct Hin2 as [-> | Hin2]; [reflexivity|].
      rewrite Forall_forall in Hx, Hy.
      apply Ha; [now left | now right | |].
      - apply Hx. now apply list_elem_of_In.
      - apply Hy. now apply list_elem_of_In. }
    subst y. f_equal. apply IH; auto.
    + eapply Permutation_cons_inv; exact Hp.
    + intros a b Ha' Hb'. apply Ha; now right.
Qed.

Lemma SortStrings_canonical l1 l2 :
  Permutation l1 l2 -> SortStrings l1 = SortStrings l2.
Proof.
  intros Hp. apply (sorted_perm_unique le).
  - apply SortStrings_sorted.
  - apply SortStrings_sorted.
  - now rewrite !SortStrings_perm.
  - intros x y _ _. apply le_antisym.
Qed.


Section More.

Context {ext : Externals}.

Lemma not_refused f : ~ refused f <-> isHealthState f = true \/ f = "".
Proof.
  unfold refused. destruct (isHealthState f); destruct (String.eqb_spec f "");
    intuition congruence.
Qed.

Lemma collectFilters_inr s pieces : forall acc fs,
  collectFilters s pieces acc = inr fs <->
  Forall (fun p => ~ refused (TrimSpace p)) pieces
  /\ fs = (acc ++ List.filter isHealthState (map TrimSpace pieces))%list.
Proof.
  induction pieces as [|p rest IH]; intros acc fs; simpl.
  - rewrite app_nil_r. split.
    + intros H. injection H as <-. split; [constructor | reflexivity].
    + intros [_ ->]. reflexivity.
  - destruct (isHealthState (TrimSpace p)) eqn:Hk.
    + rewrite IH, <- app_assoc. simpl. split.
      * intros [Hf ->]. split; [|reflexivity].
        constructor; [|exact Hf]. apply not_refused. now left.
      * intros [Hf ->]. inversion Hf; subst. split; [assumption | reflexivity].
    + destruct (String.eqb_spec (TrimSpace p) "") as [He | Hne].
      * rewrite IH. split.
        -- intros [Hf ->]. split; [|reflexivity].
           constructor; [|exact Hf]. apply not_refused. now right.
        -- intros [Hf ->]. inversion Hf; subst. split; [assumption | reflexivity].
      * split; [discriminate|]. intros [Hf _]. inversion Hf as [|? ? Hp _]; subst.
        apply not_refused in Hp as [Hp | Hp]; congruence.
Qed.

Lemma collectFilters_inl s pieces : forall acc e,
  collectFilters s pieces acc = inl e <->
  exists before p rest,
    pieces = (before ++ p :: rest)%list
    /\ Forall (fun p => ~ refused (TrimSpace p)) before
    /\ refused (TrimSpace p)
    /\ e = ErrInvalidFilter (TrimSpace p) s.
Proof.
  induction pieces as [|p rest IH]; intros acc e; simpl.
  - split; [discriminate|]. intros (before & p & rest & H & _).
    destruct before; discriminate H.
  - assert (Hskip : forall acc',
      ~ refused (TrimSpace p) ->
      (collectFilters s rest acc' = inl e <->
       exists before p0 rest0,
         p :: rest = (before ++ p0 :: rest0)%list
         /\ Forall (fun p => ~ refused (TrimSpace p)) before
         /\ refused (TrimSpace p0)
         /\ e = ErrInvalidFilter (TrimSpace p0) s)).
    { intros acc' Hok. rewrite IH. split.
      - intros (before & p0 & rest0 & -> & Hb & Hr & He).
        exists (p :: before), p0, rest0.
        split; [reflexivity|]. split; [now constructor|]. now split.
      - intros (before & p0 & rest0 & Heq & Hb & Hr & He).
        destruct before as [|b before]; simpl in Heq;
          injection Heq as -> ->; [contradiction|].
        inversion Hb; subst. exists before, p0, rest0. auto. }
    destruct (isHealthState (TrimSpace p)) eqn:Hk.
    + apply Hskip. apply not_refused. now left.
    + destruct (String.eqb_spec (TrimSpace p) "") as [He | Hne].
      * apply Hskip. apply not_refused. now right.
      * split.
        -- intros H. injection H as <-. exists [], p, rest.
           repeat split; auto.
        -- intros (before & p0 & rest0 & Heq & Hb & Hr & ->).
           destruct before as [|b before]; simpl in Heq; injection Heq as -> ->;
             [reflexivity|].
           inversion Hb as [|? ? Hp _]; subst.
           apply not_refused in Hp as [Hp | Hp]; congruence.
Qed.

Lemma Split_empty c : Split c "" = [""].
Proof. reflexivity. Qed.

Lemma constructed (s : string) (c : bool) (q : HealthServiceQuery) :
  healthServiceQuery s c = inr q ->
  exists m,
    HealthServiceQueryRe s = Some m
    /\ Forall (fun p => ~ refused (TrimSpace p)) (Split "," (m_filter m))
    /\ q = built m c.
Proof.
  unfold healthServiceQuery.
  destruct (HealthServiceQueryRe s) as [m|]; [|discriminate].
  destruct (String.eqb (m_filter m) "") eqn:He; simpl.
  - intros H. injection H as <-. exists m. split; [reflexivity|]. split.
    + apply String.eqb_eq in He. rewrite He. simpl.
      constructor; [|constructor]. apply not_refused. now right.
    + unfold built, wanted. now rewrite He.
  - destruct (collectFilters s (Split "," (m_filter m)) []) as [e | fs] eqn:Hc;
      [discriminate|].
    intros H. injection H as <-.
    apply collectFilters_inr in Hc as [Hf ->]. exists m.
    split; [reflexivity|]. split; [exact Hf|].
    unfold built, wanted, names. now rewrite He.
Qed.

(** X1: healthServiceQuery returns a query exactly when the regular
    expression matches and no name of the filter clause is refused; the
    query then has a fresh stop channel and the zero options, takes tag,
    name, dc and near from the match, and its filters are passing alone
    without a clause and the health states of the clause, sorted,
    otherwise. *)
Theorem healthServiceQuery_inr (s : string) (c : bool) (q : HealthServiceQuery) :
  healthServiceQuery s c = inr q <->
  exists m,
    HealthServiceQueryRe s = Some m
    /\ Forall (fun p => ~ refused (TrimSpace p)) (Split "," (m_filter m))
    /\ q = built m c.
Proof.
  split; [apply constructed|].
  intros (m & Hm & Hf & ->).
  unfold healthServiceQuery, built, wanted, names. rewrite Hm.
  destruct (String.eqb (m_filter m) "") eqn:He; simpl; [reflexivity|].
  assert (Hc : collectFilters s (Split "," (m_filter m)) []
               = inr ([] ++ List.filter isHealthState
                              (map TrimSpace (Split "," (m_filter m))))%list).
  { apply collectFilters_inr. split; [exact Hf | reflexivity]. }
  rewrite Hc. reflexivity.
Qed.

(** X2: healthServiceQuery fails in two ways only: with the
    invalid-format error when the regular expression does not match, and
    with the invalid-filter error for the first name of the clause, from
    the left, that is refused. *)
Theorem healthServiceQuery_inl (s : string) (c : bool) (e : error) :
  healthServiceQuery s c = inl e <->
  (HealthServiceQueryRe s = None /\ e = ErrInvalidFormat s)
  \/ (exists m before p rest,
        HealthServiceQueryRe s = Some m
        /\ Split "," (m_filter m) = (before ++ p :: rest)%list
        /\ Forall (fun p => ~ refused (TrimSpace p)) before
        /\ refused (TrimSpace p)
        /\ e = ErrInvalidFilter (TrimSpace p) s).
Proof.
  unfold healthServiceQuery.
  destruct (HealthServiceQueryRe s) as [m|].
  - destruct (String.eqb_spec (m_filter m) "") as [He | Hne]; simpl.
    + split; [discriminate|].
      intros [[H _] | (m' & before & p & rest & Hm & Hs & Hb & Hr & _)];
        [discriminate|].
      injection Hm as <-. rewrite He in Hs. simpl in Hs.
      destruct before as [|b [|b' before]]; simpl in Hs; try discriminate Hs.
      injection Hs as <- <-. destruct Hr as [_ Hr]. now elim Hr.
    + destruct (collectFilters s (Split "," (m_filter m)) []) as [e' | fs] eqn:Hc.
      * split.
        -- intros H. injection H as <-. right.
           apply collectFilters_inl in Hc as (before & p & rest & H1 & H2 & H3 & H4).
           exists m, before, p, rest. auto.
        -- intros [[H _] | (m' & before & p & rest & Hm & Hs & Hb & Hr & ->)];
             [discriminate|].
           injection Hm as <-. f_equal.
           assert (H : collectFilters s (Split "," (m_filter m)) []
                       = inl (ErrInvalidFilter (TrimSpace p) s)).
           { apply collectFilters_inl. exists before, p, rest. auto. }
           congruence.
      * split; [discriminate|].
        intros [[H _] | (m' & before & p & rest & Hm & Hs & Hb & Hr & ->)];
          [discriminate|].
        injection Hm as <-.
        assert (H : collectFilters s (Split "," (m_filter m)) []
                    = inl (ErrInvalidFilter (TrimSpace p) s)).
        { apply collectFilters_inl. exists before, p, rest. auto. }
        congruence.
  - split.
    + intros H. injection H as <-. now left.
    + intros [[_ ->] | (m & ? & ? & ? & Hm & _)]; [reflexivity | discriminate].
Qed.


Lemma wanted_named m : wanted m = SortStrings (named m).
Proof.
  unfold wanted, named. destruct (String.eqb (m_filter m) ""); reflexivity.
Qed.

Lemma isHealthState_filter l :
  Forall (fun f => isHealthState f = true) (List.filter isHealthState l).
Proof.
  apply Forall_forall. intros f Hf. apply list_elem_of_In, filter_In in Hf.
  tauto.
Qed.

Lemma named_states m : Forall (fun f => isHealthState f = true) (named m).
Proof.
  unfold named. destruct (String.eqb (m_filter m) "");
    [repeat constructor | apply isHealthState_filter].
Qed.

(** X3: every query healthServiceQuery returns has filters that are all
    health states and in ascending order, a fresh stop channel, the zero
    options and the connect flag it was asked for. *)
Theorem healthServiceQuery_invariants (s : string) (c : bool)
    (q : HealthServiceQuery) :
  healthServiceQuery s c = inr q ->
  Forall (fun f => isHealthState f = true) (filters q)
  /\ StronglySorted le (filters q)
  /\ stopCh q = Chan.make 1
  /\ connect q = c
  /\ opts q = zeroQueryOptions.
Proof.
  intros H. apply constructed in H as (m & _ & _ & ->). simpl.
  rewrite wanted_named. repeat split.
  - eapply Permutation_Forall; [symmetry; apply SortStrings_perm|].
    apply named_states.
  - apply SortStrings_sorted.
Qed.

(** X4: the order of the names in a filter clause, empty names and a
    clause that only says passing make no difference: two matches with
    the same tag, name, dc and near that ask for the same health states
    in any order give the same query, hence the same identity. *)
Theorem healthServiceQuery_filter_order (s1 s2 : string) (c : bool)
    (m1 m2 : Groups) (q1 q2 : HealthServiceQuery) :
  HealthServiceQueryRe s1 = Some m1 -> HealthServiceQueryRe s2 = Some m2 ->
  m_tag m1 = m_tag m2 -> m_name m1 = m_name m2 ->
  m_dc m1 = m_dc m2 -> m_near m1 = m_near m2 ->
  Permutation (named m1) (named m2) ->
  healthServiceQuery s1 c = inr q1 -> healthServiceQuery s2 c = inr q2 ->
  q1 = q2 /\ String_ q1 = String_ q2.
Proof.
  intros Hm1 Hm2 Ht Hn Hd Hr Hp H1 H2.
  apply constructed in H1 as (m1' & Hm1' & _ & ->).
  apply constructed in H2 as (m2' & Hm2' & _ & ->).
  assert (m1' = m1) by congruence. assert (m2' = m2) by congruence. subst.
  assert (Hq : built m1 c = built m2 c).
  { unfold built. rewrite !wanted_named, (SortStrings_canonical _ _ Hp).
    now rewrite Ht, Hn, Hd, Hr. }
  split; [exact Hq | now rewrite Hq].
Qed.

Lemma acceptStatus_true (l : list string) (s : string) :
  acceptStatus l s = true -> In s l \/ In HealthAny l.
Proof.
  induction l as [|status rest IH]; simpl; [discriminate|].
  destruct (String.eqb_spec status s) as [-> | Hs]; simpl; [tauto|].
  destruct (String.eqb_spec status HealthAny) as [-> | Ha]; simpl; [tauto|].
  intros H. apply IH in H. tauto.
Qed.

Lemma acceptStatus_in (l : list string) (s : string) :
  In s l -> acceptStatus l s = true.
Proof.
  induction l as [|status rest IH]; simpl; [tauto|].
  intros [-> | H].
  - now rewrite String.eqb_refl.
  - rewrite (IH H). now destruct (_ || _).
Qed.

Lemma acceptStatus_any (l : list string) (s : string) :
  In HealthAny l -> acceptStatus l s = true.
Proof.
  induction l as [|status rest IH]; simpl; [tauto|].
  intros [-> | H].
  - rewrite String.eqb_refl. now rewrite orb_true_r.
  - rewrite (IH H). now destruct (_ || _).
Qed.

(** X5: acceptStatus accepts a status exactly when the list holds it or
    holds any; the empty list accepts nothing. *)
Theorem acceptStatus_spec (l : list string) (s : string) :
  (acceptStatus l s = true <-> In s l \/ In HealthAny l)
  /\ acceptStatus [] s = false.
Proof.
  split; [|reflexivity]. split.
  - apply acceptStatus_true.
  - intros [H | H]; [now apply acceptStatus_in | now apply acceptStatus_any].
Qed.

Lemma filter_all {A} (f : A -> bool) (l : list A) :
  (forall x, In x l -> f x = true) -> List.filter f l = l.
Proof.
  induction l as [|x l IH]; simpl; intros H; [reflexivity|].
  rewrite (H x) by now left. f_equal. apply IH. intros y Hy. apply H. now right.
Qed.

Lemma filter_none {A} (f : A -> bool) (l : list A) :
  (forall x, In x l -> f x = false) -> List.filter f l = [].
Proof.
  induction l as [|x l IH]; simpl; intros H; [reflexivity|].
  rewrite (H x) by now left. apply IH. intros y Hy. apply H. now right.
Qed.

Lemma Fetch_list d clients l rm :
  result (Fetch d clients) = inr (l, rm) ->
  exists entries qm,
    clients (request d) = inr (entries, qm)
    /\ Permutation l (map toHealthService (List.filter (accepted d) entries))
    /\ (near d <> "" ->
        l = map toHealthService (List.filter (accepted d) entries)).
Proof.
  intros H. apply Fetch_success in H as (entries & qm & Hc & Hl & _).
  exists entries, qm. split; [exact Hc|].
  rewrite buildList_filter in Hl. subst l.
  destruct (String.eqb_spec (near d) "") as [He | Hne].
  - split; [|congruence].
    apply (SortFacts.Stable_sorted_perm Less Less_total Less_trans).
  - split; reflexivity.
Qed.

(** X6: with any among the filters nothing is filtered out: the list of
    a successful Fetch holds every entry of the reply, and in the order
    of the reply when near is set. *)
Theorem Fetch_any (d : HealthServiceQuery) (clients : Clients)
    (l : list dep.HealthService) (rm : dep.ResponseMetadata) :
  In HealthAny (filters d) ->
  result (Fetch d clients) = inr (l, rm) ->
  exists entries qm,
    clients (request d) = inr (entries, qm)
    /\ Permutation l (map toHealthService entries)
    /\ length l = length entries
    /\ (near d <> "" -> l = map toHealthService entries).
Proof.
  intros Ha H. apply Fetch_list in H as (entries & qm & Hc & Hp & Hn).
  assert (Hf : List.filter (accepted d) entries = entries).
  { apply filter_all. intros e _. unfold accepted.
    now apply acceptStatus_any. }
  rewrite Hf in Hp, Hn. exists entries, qm. repeat split; auto.
  rewrite (Permutation_length Hp). apply length_map.
Qed.

(** X7: a query without filters, as the clause "|," gives it, never
    returns an entry: the list of every successful Fetch is empty. *)
Theorem Fetch_no_filters (d : HealthServiceQuery) (clients : Clients)
    (l : list dep.HealthService) (rm : dep.ResponseMetadata) :
  filters d = [] ->
  result (Fetch d clients) = inr (l, rm) ->
  l = [].
Proof.
  intros Hf H. apply Fetch_list in H as (entries & qm & _ & Hp & _).
  rewrite filter_none in Hp.
  - symmetry in Hp. now apply Permutation_nil in Hp.
  - intros e _. unfold accepted. now rewrite Hf.
Qed.

(** X8: every entry of the list of a successful Fetch carries the
    aggregated state of its own checks as Status, and that state is one of
    the filters unless any is; with the filters at passing alone every
    entry is passing. *)
Theorem Fetch_statuses (d : HealthServiceQuery) (clients : Clients)
    (l : list dep.HealthService) (rm : dep.ResponseMetadata) :
  result (Fetch d clients) = inr (l, rm) ->
  Forall (fun h =>
            dep.Status h = AggregatedStatus (dep.Checks h)
            /\ (In (dep.Status h) (filters d) \/ In HealthAny (filters d)))
         l
  /\ (filters d = [HealthPassing] ->
      Forall (fun h => dep.Status h = HealthPassing) l).
Proof.
  intros H. apply Fetch_list in H as (entries & qm & _ & Hp & _).
  assert (Hall : Forall (fun h =>
            dep.Status h = AggregatedStatus (dep.Checks h)
            /\ (In (dep.Status h) (filters d) \/ In HealthAny (filters d)))
         l).
  { eapply Permutation_Forall; [symmetry; exact Hp|].
    apply Forall_forall. intros h Hh.
    apply list_elem_of_In, in_map_iff in Hh as (e & <- & He).
    apply filter_In in He as [_ He]. unfold accepted in He.
    apply acceptStatus_true in He. simpl. split; [reflexivity | exact He]. }
  split; [exact Hall|]. intros Hf.
  eapply Forall_impl; [exact Hall|]. intros h [_ Hh]. rewrite Hf in Hh.
  simpl in Hh. destruct Hh as [[Hh | []] | [Hh | []]]; [now symmetry|].
  discriminate Hh.
Qed.

Lemma try_recv_open ch :
  closed ch = false -> buffered ch = 0%nat -> try_recv ch = None.
Proof. unfold try_recv. now intros -> ->. Qed.

(** X9: Fetch on a dependency that has not been stopped leaves it as
    it was and sends exactly one request, for its name and tag, to the
    connect endpoint when it is a connect query, asking the server for
    passing entries exactly when the filters are passing alone; an error
    of the client comes back wrapped with the identity of the dependency,
    and a reply comes back with the index and contact time of the server,
    whatever was filtered out. *)
Theorem Fetch_live (d : HealthServiceQuery) (clients : Clients) :
  closed (stopCh d) = false -> buffered (stopCh d) = 0%nat ->
  after (Fetch d clients) = d
  /\ issued (Fetch d clients) = [request d]
  /\ req_name (request d) = name d /\ req_tag (request d) = tag d
  /\ req_connect (request d) = connect d
  /\ (req_passingOnly (request d) = true <-> filters d = [HealthPassing])
  /\ (forall err, clients (request d) = inl err ->
      result (Fetch d clients) = inl (ErrWrap err (String_ d)))
  /\ (forall entries qm, clients (request d) = inr (entries, qm) ->
      exists l, result (Fetch d clients)
                = inr (l, {| dep.LastIndex := api.LastIndex qm;
                             dep.LastContact := api.LastContact qm |})).
Proof.
  intros Hc Hb. unfold Fetch. rewrite (try_recv_open _ Hc Hb).
  assert (Hp : req_passingOnly (request d) = true <-> filters d = [HealthPassing]).
  { unfold request, passingOnly. simpl.
    destruct (filters d) as [|f [|g rest]]; try (split; discriminate).
    rewrite String.eqb_eq. split; congruence. }
  destruct (clients (request d)) as [err | [entries qm]]; simpl;
    repeat split; try apply Hp; try discriminate.
  - intros err' H. now injection H as <-.
  - intros entries' qm' H. injection H as <- <-. eauto.
Qed.

(** X10: ByNodeThenID.Less is a total preorder and not a strict order:
    it holds of every entry and itself, of any two entries one way or the
    other, it is transitive, and it holds both ways exactly between
    entries of one node name and one service ID. *)
Theorem Less_preorder :
  (forall x, Less x x = true)
  /\ (forall x y, Less x y = true \/ Less y x = true)
  /\ (forall x y z, Less x y = true -> Less y z = true -> Less x z = true)
  /\ (forall x y, Less x y = true /\ Less y x = true <->
                  dep.Node x = dep.Node y /\ dep.ID x = dep.ID y).
Proof.
  split; [|split; [|split]].
  - intros x. apply Less_spec. right. split; [reflexivity | apply le_refl].
  - intros x y. destruct (Less x y) eqn:H; [now left|].
    right. now apply Less_total.
  - apply Less_trans.
  - intros x y. rewrite !Less_spec. unfold NodeThenID_le. split.
    + intros [[H1 | [E1 H1]] [H2 | [E2 H2]]].
      * elim (lt_irrefl (dep.Node x)). eauto using lt_trans.
      * rewrite E2 in H1. now elim (lt_irrefl (dep.Node x)).
      * rewrite E1 in H2. now elim (lt_irrefl (dep.Node y)).
      * split; [exact E1 | now apply le_antisym].
    + intros [E1 E2]. rewrite E1, E2.
      split; right; split; auto using le_refl.
Qed.


End More.

(** *** Entries that compare equal *)

Section Ties.

Context {A : Type} (less : A -> A -> bool) (tied : A -> Prop).
Hypothesis less_tied : forall x y, tied x -> tied y -> less x y = true.

Lemma sink_ties x front :
  tied x -> Forall tied front -> GoSort.sink less x front = (front ++ [x])%list.
Proof.
  intros Hx. induction 1 as [|y rest Hy _ IH]; simpl; [reflexivity|].
  now rewrite (less_tied x y Hx Hy), IH.
Qed.

Lemma fold_sink_ties data : forall front,
  Forall tied data -> Forall tied front ->
  fold_left (fun f x => GoSort.sink less x f) data front = (front ++ data)%list.
Proof.
  induction data as [|x data IH]; intros front Hd Hf; simpl.
  - now rewrite app_nil_r.
  - inversion Hd; subst. rewrite sink_ties by assumption.
    rewrite IH, <- app_assoc; [reflexivity | assumption |].
    apply Forall_app. split; [assumption | now repeat constructor].
Qed.

Lemma insertionSort_ties data :
  Forall tied data -> GoSort.insertionSort less data = rev data.
Proof.
  intros Hd. unfold GoSort.insertionSort.
  now rewrite fold_sink_ties by (assumption || constructor).
Qed.

Lemma symMerge_ties first : forall second,
  Forall tied first -> Forall tied second ->
  GoSort.symMerge less first second = (second ++ first)%list.
Proof.
  induction first as [|x first IHf]; intros second Hf Hs.
  - now rewrite app_nil_r.
  - induction Hs as [|y second Hy Hs IHs].
    + now rewrite SortFacts.symMerge_nil_r.
    + rewrite SortFacts.symMerge_cons.
      inversion Hf; subst. rewrite (less_tied y x) by assumption.
      now rewrite IHs.
Qed.

Lemma mergePairs_ties blocks :
  Forall (Forall tied) blocks ->
  concat (rev (GoSort.mergePairs less blocks)) = concat (rev blocks)
  /\ Forall (Forall tied) (GoSort.mergePairs less blocks).
Proof.
  induction blocks as [|b|b1 b2 rest IH] using SortFacts.pairs_ind; simpl;
    intros H; [now split | now split |].
  inversion H as [|? ? H1 H']; subst. inversion H' as [|? ? H2 H'']; subst.
  destruct (IH H'') as [IHc IHf].
  rewrite symMerge_ties by assumption. split.
  - rewrite !concat_app, IHc. simpl. rewrite !app_nil_r.
    now rewrite <- app_assoc.
  - constructor; [|exact IHf]. apply Forall_app. now split.
Qed.

Lemma mergeBlocks_ties fuel : forall blocks,
  (length blocks <= S fuel)%nat ->
  Forall (Forall tied) blocks ->
  GoSort.mergeBlocks less fuel blocks = concat (rev blocks).
Proof.
  induction fuel as [|fuel IH]; intros [|b1 [|b2 rest]] Hl Hs; simpl in *;
    try lia; try reflexivity; try (now rewrite app_nil_r).
  destruct (mergePairs_ties (b1 :: b2 :: rest) Hs) as [Hc Hf].
  simpl in Hc, Hf. rewrite IH; [exact Hc | | exact Hf].
  simpl. pose proof (SortFacts.mergePairs_length less rest) as [_ H]. lia.
Qed.

Lemma rev_concat_blocks (blocks : list (list A)) :
  concat (rev (map (@rev A) blocks)) = rev (concat blocks).
Proof.
  induction blocks as [|b blocks IH]; simpl; [reflexivity|].
  now rewrite concat_app, IH, rev_app_distr; simpl; rewrite app_nil_r.
Qed.

Lemma blocksOf_tied fuel : forall data : list A,
  Forall tied data -> Forall (Forall tied) (GoSort.blocksOf fuel data).
Proof.
  induction fuel as [|fuel IH]; intros [|x data] Hd; simpl; try constructor;
    inversion Hd; subst.
  - constructor; [assumption | now apply Forall_take].
  - apply IH. now apply Forall_drop.
Qed.

Lemma Stable_all_tied data : Forall tied data -> GoSort.Stable less data = rev data.
Proof.
  intros Hd. unfold GoSort.Stable.
  pose proof (blocksOf_tied (length data) data Hd) as Hb.
  assert (Hm : map (GoSort.insertionSort less) (GoSort.blocksOf (length data) data)
               = map (@rev A) (GoSort.blocksOf (length data) data)).
  { apply map_ext_in. intros b Hin. apply insertionSort_ties.
    rewrite Forall_forall in Hb. apply Hb. now apply list_elem_of_In. }
  rewrite Hm, mergeBlocks_ties.
  - rewrite rev_concat_blocks, SortFacts.blocksOf_concat by lia. reflexivity.
  - lia.
  - apply Forall_map. eapply Forall_impl; [exact Hb|].
    intros b Hbt. simpl. now apply Forall_rev.
Qed.

End Ties.

Section More2.

Context {ext : Externals}.

(** X11: sort.Stable with ByNodeThenID.Less does not keep the order of
    entries that have the same node name and service ID: a list of such
    entries comes out reversed. *)
Theorem Stable_Less_reverses_ties (l : list dep.HealthService) (n i : string) :
  Forall (fun h => dep.Node h = n /\ dep.ID h = i) l ->
  GoSort.Stable Less l = rev l.
Proof.
  apply Stable_all_tied. intros x y [Hx1 Hx2] [Hy1 Hy2].
  apply Less_spec. right. split; [congruence|].
  rewrite Hx2, Hy2. apply le_refl.
Qed.


Lemma filter_perm {A} (f : A -> bool) (l l' : list A) :
  Permutation l l' -> Permutation (List.filter f l) (List.filter f l').
Proof.
  induction 1 as [|x l l' _ IH|x y l|l l' l'' _ IH1 _ IH2]; simpl.
  - reflexivity.
  - destruct (f x); [now constructor | exact IH].
  - destruct (f x), (f y); try reflexivity. apply perm_swap.
  - now rewrite IH1.
Qed.

(** X12: with near empty the list does not depend on the order of the
    reply: two replies with the same entries in different orders give the
    same list, when no two different entries of the list share node name
    and service ID. *)
Theorem Fetch_order_canonical (d : HealthServiceQuery) (c1 c2 : Clients)
    (entries1 entries2 : list api.ServiceEntry) (qm1 qm2 : api.QueryMeta)
    (l1 l2 : list dep.HealthService) (rm1 rm2 : dep.ResponseMetadata) :
  near d = "" ->
  c1 (request d) = inr (entries1, qm1) ->
  c2 (request d) = inr (entries2, qm2) ->
  Permutation entries1 entries2 ->
  (forall x y, In x l1 -> In y l1 ->
               dep.Node x = dep.Node y -> dep.ID x = dep.ID y -> x = y) ->
  result (Fetch d c1) = inr (l1, rm1) ->
  result (Fetch d c2) = inr (l2, rm2) ->
  l1 = l2.
Proof.
  intros Hn Hc1 Hc2 Hp Hk H1 H2.
  apply Fetch_success in H1 as (e1 & q1 & Hc1' & Hl1 & _).
  apply Fetch_success in H2 as (e2 & q2 & Hc2' & Hl2 & _).
  rewrite Hc1 in Hc1'. injection Hc1' as <- <-.
  rewrite Hc2 in Hc2'. injection Hc2' as <- <-.
  rewrite Hn in Hl1, Hl2. simpl in Hl1, Hl2.
  rewrite buildList_filter in Hl1, Hl2.
  apply (sorted_perm_unique NodeThenID_le).
  - subst l1. apply Stable_Less_sorted.
  - subst l2. apply Stable_Less_sorted.
  - subst l1 l2.
    rewrite !(proj2 (SortFacts.Stable_sorted_perm Less Less_total Less_trans _)).
    apply Permutation_map, filter_perm, Hp.
  - intros x y Hx Hy Hxy Hyx. apply Hk; try assumption.
    + destruct Hxy as [Hlt | [He _]]; [|exact He].
      destruct Hyx as [Hlt' | [He' _]]; [|now symmetry].
      elim (lt_irrefl (dep.Node x)). eauto using lt_trans.
    + destruct Hxy as [Hlt | [He Hle]].
      * destruct Hyx as [Hlt' | [He' _]].
        -- elim (lt_irrefl (dep.Node x)). eauto using lt_trans.
        -- rewrite He' in Hlt. now elim (lt_irrefl (dep.Node x)).
      * destruct Hyx as [Hlt' | [_ Hle']].
        -- rewrite He in Hlt'. now elim (lt_irrefl (dep.Node y)).
        -- now apply le_antisym.
Qed.

Lemma String_sameQuery d d' : sameQuery d d' -> String_ d' = String_ d.
Proof.
  intros (H1 & H2 & H3 & H4 & H5 & _). unfold String_.
  now rewrite H1, H2, H3, H4, H5.
Qed.

Lemma sameQuery_refl d : sameQuery d d.
Proof. repeat split. Qed.

Lemma sameQuery_trans d1 d2 d3 :
  sameQuery d1 d2 -> sameQuery d2 d3 -> sameQuery d1 d3.
Proof. unfold sameQuery. intuition congruence. Qed.

Lemma try_recv_flag ch ch' : try_recv ch = Some ch' -> closed ch' = closed ch.
Proof.
  unfold try_recv. destruct ch as [[|n] cp cl]; simpl.
  - destruct cl; [|discriminate]. intros H. now injection H as <-.
  - intros H. now injection H as <-.
Qed.

Lemma Fetch_after d clients :
  sameQuery d (after (Fetch d clients))
  /\ closed (stopCh (after (Fetch d clients))) = closed (stopCh d).
Proof.
  unfold Fetch. destruct (try_recv (stopCh d)) as [ch|] eqn:Hr; simpl.
  - split; [repeat split | now apply try_recv_flag].
  - destruct (clients (request d)) as [err | [entries qm]]; simpl;
      (split; [apply sameQuery_refl | reflexivity]).
Qed.

Lemma step_returned d c d' :
  step d c = Returned d' ->
  sameQuery d d'
  /\ match c with
     | CallStop => closed (stopCh d) = false /\ closed (stopCh d') = true
     | _ => closed (stopCh d') = closed (stopCh d)
     end.
Proof.
  destruct c as [o | clients |]; simpl.
  - intros H. injection H as <-. split; [repeat split | reflexivity].
  - intros H. injection H as <-. apply Fetch_after.
  - unfold Stop, close. destruct (closed (stopCh d)) eqn:Hc; [discriminate|].
    intros H. injection H as <-. split; [repeat split | split; reflexivity].
Qed.

Lemma step_panicked d c msg :
  step d c = Panicked msg ->
  c = CallStop /\ closed (stopCh d) = true /\ msg = "close of closed channel".
Proof.
  destruct c as [o | clients |]; simpl; try discriminate.
  unfold Stop, close. destruct (closed (stopCh d)); [|discriminate].
  intros H. now injection H as <-.
Qed.

Lemma Stop_closed d :
  closed (stopCh d) = true -> Stop d = Panicked "close of closed channel".
Proof. unfold Stop, close. now intros ->. Qed.

(** X13: whatever is called on a dependency (SetOptions, Fetch, Stop),
    as long as nothing panics its tag, name, dc, near, filters and connect
    flag stay what they were, so its identity never changes; and a
    dependency that was stopped stays stopped. *)
Theorem steps_keep_identity (d d' : HealthServiceQuery) (cs : list call) :
  steps d cs = Returned d' ->
  sameQuery d d'
  /\ String_ d' = String_ d
  /\ (closed (stopCh d) = true -> closed (stopCh d') = true).
Proof.
  revert d. induction cs as [|c cs IH]; intros d; simpl.
  - intros H. injection H as <-.
    split; [apply sameQuery_refl | split; auto].
  - destruct (step d c) as [d1 | msg] eqn:Hs; [|discriminate].
    intros H. apply IH in H as (Hq & _ & Hc).
    apply step_returned in Hs as [Hq1 Hc1].
    assert (Hq2 : sameQuery d d') by eauto using sameQuery_trans.
    split; [exact Hq2|]. split; [now apply String_sameQuery|].
    intros Hd. apply Hc. destruct c; try congruence. destruct Hc1; congruence.
Qed.

Lemma steps_stopped cs : forall d,
  closed (stopCh d) = true ->
  match steps d cs with
  | Returned _ => stops cs = 0%nat
  | Panicked msg => msg = "close of closed channel" /\ (1 <= stops cs)%nat
  end.
Proof.
  induction cs as [|c cs IH]; intros d Hc; simpl; [reflexivity|].
  destruct (step d c) as [d1 | msg] eqn:Hs.
  - apply step_returned in Hs as [_ Hc1].
    destruct c; try (apply IH; congruence).
    destruct Hc1; congruence.
  - apply step_panicked in Hs as (-> & _ & ->). split; [reflexivity | lia].
Qed.

Lemma steps_live cs : forall d,
  closed (stopCh d) = false ->
  match steps d cs with
  | Returned _ => (stops cs <= 1)%nat
  | Panicked msg => msg = "close of closed channel" /\ (2 <= stops cs)%nat
  end.
Proof.
  induction cs as [|c cs IH]; intros d Hc; simpl; [lia|].
  destruct (step d c) as [d1 | msg] eqn:Hs.
  - apply step_returned in Hs as [_ Hc1].
    destruct c; try (apply IH; congruence).
    destruct Hc1 as [_ Hc1].
    pose proof (steps_stopped cs d1 Hc1) as H.
    destruct (steps d1 cs); [lia | destruct H; split; [assumption | lia]].
  - apply step_panicked in Hs as (_ & Hc' & _). congruence.
Qed.

(** X14: a sequence of calls on a dependency that has not been stopped
    panics exactly when it holds two Stop calls or more, whatever lies
    between them, and the panic is that of closing a closed channel; with
    at most one Stop the sequence returns. *)
Theorem steps_panic_iff (d : HealthServiceQuery) (cs : list call) :
  closed (stopCh d) = false ->
  (steps d cs = Panicked "close of closed channel" <-> (2 <= stops cs)%nat)
  /\ ((exists d', steps d cs = Returned d') <-> (stops cs <= 1)%nat).
Proof.
  intros Hc. pose proof (steps_live cs d Hc) as H.
  destruct (steps d cs) as [d' | msg].
  - split; split; try discriminate; try lia; eauto.
  - destruct H as [-> H]. split; split; try lia; auto.
    intros [d' Hd]. discriminate Hd.
Qed.

(** X15: NewHealthConnectQuery fails exactly when NewHealthServiceQuery
    does, with the same error; when they succeed the two queries have the
    same identity although one asks the service endpoint and the other
    the connect endpoint. *)
Theorem service_and_connect (s : string) :
  (forall e, NewHealthServiceQuery s = inl e <-> NewHealthConnectQuery s = inl e)
  /\ (forall q, NewHealthServiceQuery s = inr q ->
      exists q', NewHealthConnectQuery s = inr q'
                 /\ String_ q' = String_ q
                 /\ req_connect (request q) = false
                 /\ req_connect (request q') = true).
Proof.
  unfold NewHealthServiceQuery, NewHealthConnectQuery, healthServiceQuery.
  destruct (HealthServiceQueryRe s) as [m|]; [|split; [tauto | discriminate]].
  destruct (if negb (String.eqb (m_filter m) "") then _ else _) as [e | fs].
  - split; [tauto | discriminate].
  - split; [split; discriminate|].
    intros q H. injection H as <-. eexists. split; [reflexivity|].
    repeat split.
Qed.

End More2.

(** *** The properties on the sample environment *)

Import Sample SampleLife.

Example NewHealthServiceQuery_any : NewHealthServiceQuery "web|any" = inr webAny.
Proof. reflexivity. Qed.

Example NewHealthServiceQuery_commas : NewHealthServiceQuery "web|," = inr webNone.
Proof. reflexivity. Qed.

Example String_web : String_ web = "health.service(web|passing)".
Proof. reflexivity. Qed.

Lemma healthServiceQuery_invariants_witness :
  NewHealthServiceQuery "web|warning,,passing,any"
  = inr (built {| m_tag := ""; m_name := "web"; m_dc := ""; m_near := "";
                  m_filter := "warning,,passing,any" |} false)
  /\ filters (built {| m_tag := ""; m_name := "web"; m_dc := ""; m_near := "";
                       m_filter := "warning,,passing,any" |} false)
     = ["any"; "passing"; "warning"]
  /\ Forall (fun f => isHealthState f = true) ["any"; "passing"; "warning"]
  /\ StronglySorted le ["any"; "passing"; "warning"].
Proof.
  split; [reflexivity|]. split; [reflexivity|].
  pose proof (healthServiceQuery_invariants "web|warning,,passing,any" false _
                eq_refl) as (H1 & H2 & _).
  split; [exact H1 | exact H2].
Defined.

Lemma healthServiceQuery_filter_order_witness :
  (exists q, NewHealthServiceQuery "web|warning,passing" = inr q
             /\ NewHealthServiceQuery "web|passing,,warning" = inr q)
  /\ (exists q, NewHealthServiceQuery "web" = inr q
                /\ NewHealthServiceQuery "web|passing" = inr q).
Proof.
  split.
  - eexists. split; [reflexivity|].
    refine (eq_trans _ (f_equal inr (eq_sym (proj1
      (healthServiceQuery_filter_order "web|warning,passing"
         "web|passing,,warning" false _ _ _ _
         eq_refl eq_refl eq_refl eq_refl eq_refl eq_refl _ eq_refl eq_refl))))).
    + reflexivity.
    + apply perm_swap.
  - eexists. split; [reflexivity|].
    refine (eq_trans _ (f_equal inr (eq_sym (proj1
      (healthServiceQuery_filter_order "web" "web|passing" false _ _ _ _
         eq_refl eq_refl eq_refl eq_refl eq_refl eq_refl _ eq_refl eq_refl))))).
    + reflexivity.
    + reflexivity.
Defined.

Lemma Fetch_any_witness :
  In HealthAny (filters webAny)
  /\ result (Fetch webAny server) = inr (anyList, webMeta)
  /\ map dep.ID anyList = ["web0"; "web1"; "web2"]
  /\ exists entries qm,
       server (request webAny) = inr (entries, qm)
       /\ Permutation anyList (map toHealthService entries)
       /\ length anyList = length entries
       /\ (near webAny <> "" -> anyList = map toHealthService entries).
Proof.
  split; [now left|]. split; [reflexivity|]. split; [reflexivity|].
  exact (Fetch_any webAny server anyList webMeta (or_introl eq_refl) eq_refl).
Defined.

Lemma Fetch_no_filters_witness :
  filters webNone = []
  /\ exists l, result (Fetch webNone server) = inr (l, webMeta) /\ l = [].
Proof.
  split; [reflexivity|]. exists []. split; [reflexivity|].
  exact (Fetch_no_filters webNone server [] webMeta eq_refl eq_refl).
Defined.

Lemma Fetch_statuses_witness :
  result (Fetch web server) = inr (webList, webMeta)
  /\ filters web = [HealthPassing]
  /\ Forall (fun h => dep.Status h = HealthPassing) webList.
Proof.
  split; [reflexivity|]. split; [reflexivity|].
  exact (proj2 (Fetch_statuses web server webList webMeta eq_refl) eq_refl).
Defined.

Lemma Fetch_live_witness :
  Chan.closed (stopCh web) = false /\ Chan.buffered (stopCh web) = 0%nat
  /\ after (Fetch web serverDown) = web
  /\ issued (Fetch web serverDown) = [request web]
  /\ result (Fetch web serverDown)
     = inl (ErrWrap "connection refused" "health.service(web|passing)").
Proof.
  pose proof (Fetch_live web serverDown eq_refl eq_refl)
    as (H1 & H2 & _ & _ & _ & _ & H3 & _).
  split; [reflexivity|]. split; [reflexivity|].
  split; [exact H1|]. split; [exact H2|].
  exact (H3 "connection refused" eq_refl).
Defined.

Lemma Stable_Less_reverses_ties_witness :
  Forall (fun h => dep.Node h = "n1" /\ dep.ID h = "web1") twins
  /\ map dep.Address (GoSort.Stable Less twins) = ["10.1.0.2"; "10.1.0.1"].
Proof.
  assert (H : Forall (fun h => dep.Node h = "n1" /\ dep.ID h = "web1") twins).
  { repeat constructor. }
  split; [exact H|].
  rewrite (Stable_Less_reverses_ties twins "n1" "web1" H). reflexivity.
Defined.

Lemma Fetch_order_canonical_witness :
  near web = ""
  /\ Permutation serverReply shuffledReply
  /\ result (Fetch web server) = inr (webList, webMeta)
  /\ result (Fetch web serverShuffled)
     = inr (shuffledList, {| dep.LastIndex := 8; dep.LastContact := 0 |})
  /\ webList = shuffledList.
Proof.
  assert (Hp : Permutation serverReply shuffledReply).
  { unfold serverReply, shuffledReply.
    eapply perm_trans; [apply perm_swap|].
    eapply perm_trans; [apply perm_skip, perm_swap|].
    eapply perm_trans; [apply perm_swap|]. reflexivity. }
  split; [reflexivity|]. split; [exact Hp|]. split; [reflexivity|].
  split; [reflexivity|].
  refine (Fetch_order_canonical web server serverShuffled serverReply
            shuffledReply _ _ webList shuffledList webMeta _
            eq_refl eq_refl eq_refl Hp _ eq_refl eq_refl).
  intros x y Hx Hy Hn Hi. simpl in Hx, Hy.
  destruct Hx as [<- | [<- | []]]; destruct Hy as [<- | [<- | []]];
    try reflexivity; discriminate Hn.
Defined.

Lemma steps_keep_identity_witness :
  (exists d', steps web oneStop = Returned d'
              /\ String_ d' = "health.service(web|passing)"
              /\ opts d' = ("dc2", "")
              /\ Chan.closed (stopCh d') = true).
Proof.
  eexists. split; [reflexivity|]. split; [|split; reflexivity].
  exact (proj1 (proj2 (steps_keep_identity web _ oneStop eq_refl))).
Defined.

Lemma steps_panic_iff_witness :
  Chan.closed (stopCh web) = false
  /\ stops twoStops = 2%nat
  /\ steps web twoStops = Panicked "close of closed channel"
  /\ exists d', steps web oneStop = Returned d'.
Proof.
  split; [reflexivity|]. split; [reflexivity|]. split.
  - apply (proj1 (steps_panic_iff web twoStops eq_refl)). simpl. lia.
  - apply (proj2 (steps_panic_iff web oneStop eq_refl)). simpl. lia.
Defined.

End HealthServiceMore.

(** ** The example: rendering several templates once *)

Module ExamplesFacts.

Import Examples.

Section Facts.

Context {Template World : Type}.
Variable Run : World -> Template -> World * (string + ResolveEvent).
Variable Wait : World -> World * option string.

(** X16: with the two templates of the example, a pass in which Run of
    the first is complete and then Run of the second is complete does not
    return the two results: the second removal slices the shortened slice
    beyond its length and panics. *)
Theorem RenderMultipleOnce_both_complete (fuel : nat) (w0 w1 w2 : World)
    (a b : Template) (ea eb : ResolveEvent) :
  Run w0 a = (w1, inr ea) -> Complete ea = true ->
  Run w1 b = (w2, inr eb) -> Complete eb = true ->
  RenderMultipleOnce Run Wait (S fuel) w0 [a; b] = PanicSliceBounds 2 1.
Proof.
  intros Ha Hca Hb Hcb. unfold RenderMultipleOnce. simpl.
  rewrite Ha, Hca. simpl. rewrite Hb, Hcb. reflexivity.
Qed.

(** X18: with two templates, when the second completes in the first
    pass, Wait succeeds and the first completes in the second pass, the
    contents are returned joined by a comma and a space, the second
    first. *)
Theorem RenderMultipleOnce_second_first (fuel : nat) (w0 w1 w2 w3 w4 : World)
    (a b : Template) (e1 e2 e3 : ResolveEvent) :
  Run w0 a = (w1, inr e1) -> Complete e1 = false ->
  Run w1 b = (w2, inr e2) -> Complete e2 = true ->
  Wait w2 = (w3, None) ->
  Run w3 a = (w4, inr e3) -> Complete e3 = true ->
  RenderMultipleOnce Run Wait (S (S fuel)) w0 [a; b]
  = Returned (Contents e2 +:+ ", " +:+ Contents e3).
Proof.
  intros H1 C1 H2 C2 Hw H3 C3. unfold RenderMultipleOnce. simpl.
  rewrite H1, C1. simpl. rewrite H2, C2. simpl. rewrite Hw. simpl.
  rewrite H3, C3. reflexivity.
Qed.

Lemma removeAt_length i (st : @state Template World) :
  (i + 1 <= len st)%nat -> (len st <= length (arr st))%nat ->
  length (removeAt i st) = length (arr st).
Proof.
  intros H1 H2. unfold removeAt.
  rewrite !length_app, !length_take, !length_drop. lia.
Qed.

Lemma removeAt_slice i (st : @state Template World) :
  (i + 1 <= len st)%nat -> (len st <= length (arr st))%nat ->
  firstn (len st - 1) (removeAt i st) = delete i (firstn (len st) (arr st)).
Proof.
  intros H1 H2. unfold removeAt.
  rewrite app_assoc, take_app_length'.
  - rewrite delete_take_drop, take_take, take_drop_commute.
    replace (i `min` len st)%nat with i by lia.
    replace (S i) with (i + 1)%nat by lia.
    replace (i + 1 + (len st - (i + 1)))%nat with (len st) by lia.
    reflexivity.
  - rewrite length_app, !length_take, length_drop. lia.
Qed.

Section Ready.

Variable ready : World -> Prop.
Hypothesis Run_ready :
  forall w t, ready w ->
    exists w' ev, Run w t = (w', inr ev) /\ Complete ev = true /\ ready w'.

Lemma pass_ready_panics todo : forall i st,
  ready (world st) ->
  (len st < i + todo)%nat -> (len st <= length (arr st))%nat ->
  (i + todo <= length (arr st))%nat -> (1 <= todo)%nat ->
  exists low high,
    pass Run i todo st = inr (PanicSliceBounds low high) /\ (high < low)%nat.
Proof.
  induction todo as [|todo IH]; intros i st Hr Hl Hle Hn Ht; [lia|].
  simpl. destruct (nth_error (arr st) i) as [tmpl|] eqn:Hnth.
  - destruct (Run_ready (world st) tmpl Hr) as (w' & ev & -> & -> & Hr').
    destruct (Nat.leb_spec (i + 1) (len st)) as [Hi | Hi].
    + apply IH; simpl; try assumption; try lia.
      * rewrite removeAt_length by lia. lia.
      * rewrite removeAt_length by lia. lia.
    + exists (i + 1)%nat, (len st). split; [reflexivity | lia].
  - apply nth_error_None in Hnth. lia.
Qed.

(** X17: when every Run is complete from the start, one template gives
    its contents back, and two templates or more never do: the function
    panics on a slice expression whose lower bound is beyond the
    length. *)
Theorem RenderMultipleOnce_ready (fuel : nat) (w0 : World)
    (templates : list Template) :
  ready w0 ->
  (forall t, templates = [t] ->
     exists w' ev, Run w0 t = (w', inr ev)
                   /\ RenderMultipleOnce Run Wait (S fuel) w0 templates
                      = Returned (Contents ev))
  /\ ((2 <= length templates)%nat ->
      exists low high,
        RenderMultipleOnce Run Wait (S fuel) w0 templates
        = PanicSliceBounds low high /\ (high < low)%nat).
Proof.
  intros Hr. split.
  - intros t ->. destruct (Run_ready w0 t Hr) as (w' & ev & Hrun & Hc & _).
    exists w', ev. split; [exact Hrun|].
    unfold RenderMultipleOnce. simpl. rewrite Hrun, Hc. reflexivity.
  - intros Hn. destruct templates as [|t rest]; [simpl in Hn; lia|].
    destruct (Run_ready w0 t Hr) as (w' & ev & Hrun & Hc & Hr').
    unfold RenderMultipleOnce, loop. cbn [len arr world length].
    cbn [pass nth_error arr world]. rewrite Hrun, Hc.
    cbn [len Nat.add Nat.leb].
    destruct (pass_ready_panics (length rest) 1
                {| arr := removeAt 0 {| arr := t :: rest;
                                        len := S (length rest);
                                        results := []; world := w0 |};
                   len := S (length rest) - 1;
                   results := ([] ++ [Contents ev])%list; world := w' |})
      as (low & high & Hp & Hlt); cbn [len arr world]; try assumption.
    + lia.
    + rewrite removeAt_length; simpl; lia.
    + rewrite removeAt_length; simpl; lia.
    + simpl in Hn. lia.
    + exists low, high. split; [|exact Hlt].
      cbn [results] in *. rewrite Hp. reflexivity.
Qed.

End Ready.

Lemma nth_error_lookup {A} (l : list A) : forall i, nth_error l i = l !! i.
Proof.
  induction l as [|x l IH]; intros [|i]; simpl; try reflexivity. apply IH.
Qed.

(** X19: a pass that ends without panic made one call of Run for each
    position of its range, each from the watcher the call before left;
    the template it removes at a position is the template it gave to Run
    there, and it removes it exactly when the event of that call is
    complete, appending the contents of that event to the results.  So
    the templates before the pass are, up to their order, the templates
    left and the templates of the complete calls, and no template that
    was not complete is lost: the templates left are a sublist of those
    before, the results only grow at the end, and there is one new result
    for every template removed. *)
Theorem pass_keeps_templates (todo : nat) : forall (i : nat) (st st' : state),
  (len st <= length (arr st))%nat ->
  pass Run i todo st = inl st' ->
  (exists cs,
     calls Run (world st) cs (world st')
     /\ length cs = todo
     /\ results st'
        = (results st ++ map (fun c => Contents (snd c)) (completed cs))%list
     /\ Permutation (firstn (len st) (arr st))
          (firstn (len st') (arr st') ++ map fst (completed cs))
     /\ len st = (len st' + length (completed cs))%nat)
  /\ sublist (firstn (len st') (arr st')) (firstn (len st) (arr st))
  /\ (length (results st') + len st' = length (results st) + len st)%nat
  /\ results st `prefix_of` results st'
  /\ length (arr st') = length (arr st).
Proof.
  induction todo as [|todo IH]; intros i st st' Hle; simpl.
  - intros H. injection H as <-. split; [|repeat split; reflexivity].
    exists []. simpl. rewrite !app_nil_r.
    split; [constructor|]. repeat split; auto.
  - destruct (nth_error (arr st) i) as [tmpl|] eqn:Hnth; [|discriminate].
    destruct (Run (world st) tmpl) as [w [err | re]] eqn:Hrun; [discriminate|].
    destruct (Complete re) eqn:Hc.
    + destruct (Nat.leb_spec (i + 1) (len st)) as [Hi | Hi]; [|discriminate].
      intros H. apply IH in H as ((cs & K1 & K2 & K3 & K4 & K5) & H1 & H2 & H3 & H4);
        simpl in *.
      * rewrite removeAt_slice in H1, K4 by assumption.
        rewrite removeAt_length in H4 by assumption.
        split; [|repeat split].
        -- exists ((tmpl, re) :: cs). unfold completed in *. simpl. rewrite Hc.
           split; [econstructor; eassumption|].
           split; [now rewrite K2|].
           split; [now rewrite K3, <- app_assoc|].
           split; [|simpl; lia].
           simpl. rewrite <- Permutation_middle, <- K4.
           apply delete_Permutation.
           rewrite lookup_take_lt by lia. now rewrite <- nth_error_lookup.
        -- etransitivity; [exact H1 | apply sublist_delete].
        -- rewrite length_app in H2. simpl in H2. lia.
        -- etransitivity; [|exact H3]. now apply prefix_app_r.
        -- exact H4.
      * rewrite removeAt_length by assumption. lia.
    + intros H. apply IH in H as ((cs & K1 & K2 & K3 & K4 & K5) & H1 & H2 & H3 & H4);
        simpl in *; [|assumption].
      split; [|repeat split; assumption].
      exists ((tmpl, re) :: cs). unfold completed in *. simpl. rewrite Hc.
      split; [econstructor; eassumption|].
      split; [now rewrite K2|]. repeat split; assumption.
Qed.

End Facts.

Lemma sampleRun_ready (w : nat) (t : string) :
  (1 <= w)%nat ->
  exists w' ev, sampleRun w t = (w', inr ev) /\ Complete ev = true /\ (1 <= w')%nat.
Proof.
  intros Hw. unfold sampleRun.
  destruct (String.eqb t "nodes"); [eauto|].
  destruct (Nat.leb_spec 1 w); [eauto | lia].
Qed.

Lemma RenderMultipleOnce_both_complete_witness :
  RenderMultipleOnce sampleRun sampleWait 5 1%nat ["services"; "nodes"]
  = PanicSliceBounds 2 1.
Proof.
  exact (RenderMultipleOnce_both_complete sampleRun sampleWait 4 1%nat _ _
           "services" "nodes" _ _ eq_refl eq_refl eq_refl eq_refl).
Defined.

Lemma RenderMultipleOnce_ready_witness :
  (exists w' ev, sampleRun 1%nat "services" = (w', inr ev)
                 /\ RenderMultipleOnce sampleRun sampleWait 1 1%nat ["services"]
                    = Returned (Contents ev))
  /\ (exists low high,
        RenderMultipleOnce sampleRun sampleWait 1 1%nat
          ["services"; "nodes"; "nodes"]
        = PanicSliceBounds low high /\ (high < low)%nat).
Proof.
  split.
  - exact (proj1 (RenderMultipleOnce_ready sampleRun sampleWait
                    (fun w => (1 <= w)%nat) sampleRun_ready 0 1%nat
                    ["services"] (le_n 1)) "services" eq_refl).
  - refine (proj2 (RenderMultipleOnce_ready sampleRun sampleWait
                     (fun w => (1 <= w)%nat) sampleRun_ready 0 1%nat
                     ["services"; "nodes"; "nodes"] (le_n 1)) _).
    simpl. lia.
Defined.

Lemma RenderMultipleOnce_second_first_witness :
  RenderMultipleOnce sampleRun sampleWait 2 0%nat ["services"; "nodes"]
  = Returned "node at 127.0.0.1, service consul at 127.0.0.1".
Proof.
  exact (RenderMultipleOnce_second_first sampleRun sampleWait 0 0%nat _ _ _ _
           "services" "nodes" _ _ _
           eq_refl eq_refl eq_refl eq_refl eq_refl eq_refl eq_refl).
Defined.

Lemma pass_keeps_templates_witness :
  exists st',
    pass sampleRun 0 2 sampleState = inl st'
    /\ firstn (len st') (arr st') = ["services"]
    /\ results st' = ["node at 127.0.0.1"]
    /\ (exists cs,
          calls sampleRun 0%nat cs (world st')
          /\ length cs = 2%nat
          /\ results st'
             = ([] ++ map (fun c => Contents (snd c)) (completed cs))%list
          /\ Permutation ["services"; "nodes"]
               (firstn (len st') (arr st') ++ map fst (completed cs))
          /\ 2%nat = (len st' + length (completed cs))%nat)
    /\ sublist (firstn (len st') (arr st')) ["services"; "nodes"]
    /\ (length (results st') + len st' = 2)%nat.
Proof.
  eexists. split; [reflexivity|]. split; [reflexivity|]. split; [reflexivity|].
  pose proof (pass_keeps_templates sampleRun 2 0 sampleState _ (le_n 2) eq_refl)
    as (H0 & H1 & H2 & _).
  split; [exact H0|]. split; [exact H1 | exact H2].
Defined.

End ExamplesFacts.
